(** * The metric aggregation core of sentry-go

    A shallow embedding of [metrics.go] (module [MetricsGo]) and of the
    revision of that file with the generic Set, [src/unnamed/part_000]
    (module [Part000]), together with the pieces of the Go runtime both
    rely on (module [Go]):
    byte strings, [interface{}] values and type assertions, the three
    regular expressions of shape [[^...]+], [fmt]'s [%v] and [%d] verbs,
    [math.Min]/[math.Max], sorting and [hash/crc32].

    Conventions.
    - A Go [string] is a sequence of bytes: Rocq's [string].
    - [float64] is IEEE 754 binary64, computed with [SpecFloat] at
      precision 53 and maximal exponent 1024.
    - [int] and [int64] are [Z]; the code does no arithmetic on them.
    - A method with a pointer receiver is a function from the receiver's
      state to an [outcome]: the new state, or a run-time panic together
      with the state at the moment of the panic.
    - [map[K]V] is a finite map ([gmap], [gset] for [map[K]void]).  The
      order in which [range] visits the keys is not fixed by the language:
      every function that ranges over a map takes the choice of the
      runtime as an argument, a [Go.ranger], of which [Go.rangeOrder] says
      what the language promises. *)

From Stdlib Require Import ZArith NArith Lia Bool Ascii DecimalString.
From Stdlib Require DecimalZ DecimalPos DecimalN.
From Stdlib Require Import Floats.SpecFloat.
From Stdlib Require Import QArith Qabs Qpower Lqa.
From stdpp Require Import base gmap sets list strings sorting.

(* ===================================================================== *)
(** * The Go runtime, as far as the metrics code uses it                  *)
(* ===================================================================== *)

Module Go.

(** ** Characters and character classes *)

Definition byteRange (lo hi c : ascii) : bool :=
  ((N_of_ascii lo <=? N_of_ascii c) && (N_of_ascii c <=? N_of_ascii hi))%N.

Fixpoint byteIn (cs : string) (c : ascii) : bool :=
  match cs with
  | EmptyString => false
  | String c' cs' => Ascii.eqb c c' || byteIn cs' c
  end.

(** Perl classes of the RE2 syntax; all three are ASCII-only in Go. *)
Definition class_d (c : ascii) : bool := byteRange "0" "9" c.

Definition class_w (c : ascii) : bool :=
  byteRange "0" "9" c || byteRange "A" "Z" c || byteRange "a" "z" c
  || Ascii.eqb c "_".

(** [\s] is [[\t\n\f\r ]]. *)
Definition class_s (c : ascii) : bool :=
  Ascii.eqb c "009" || Ascii.eqb c "010" || Ascii.eqb c "012"
  || Ascii.eqb c "013" || Ascii.eqb c " ".

(** ** Regular expressions of shape [[^...]+]

    The three patterns of the package are a negated class under [+].  Such
    a pattern is given by the class that is negated.  Every member of the
    three classes is an ASCII character, so a byte of a multi-byte UTF-8
    sequence, or an invalid byte (decoded as U+FFFD, width 1), is outside
    the class: matching byte by byte gives the matches of the rune-wise
    engine. *)
Record Regexp := NegatedClassPlus { class : ascii -> bool }.

(** Leftmost, longest, non-overlapping matches: each maximal run of bytes
    outside the class is one match.  [inMatch] says that the previous byte
    belongs to a match already replaced. *)
Fixpoint replaceRuns (re : Regexp) (repl : string) (inMatch : bool)
    (src : string) : string :=
  match src with
  | EmptyString => EmptyString
  | String c rest =>
      if class re c then String c (replaceRuns re repl false rest)
      else if inMatch then replaceRuns re repl true rest
      else repl +:+ replaceRuns re repl true rest
  end.

(** [re.ReplaceAllString(src, repl)], for a replacement without [$]. *)
Definition ReplaceAllString (re : Regexp) (src repl : string) : string :=
  replaceRuns re repl false src.

(** ** [float64] *)

Definition float64 : Type := spec_float.

Definition prec : Z := 53.
Definition emax : Z := 1024.

(** The float nearest to [m * 2^e]: how a constant is written. *)
Definition f64 (m e : Z) : float64 := binary_normalize prec emax m e false.

Definition f64add (x y : float64) : float64 := SFadd prec emax x y.
Definition f64lt (x y : float64) : bool := SFltb x y.
Definition f64eq (x y : float64) : bool := SFeqb x y.

Definition IsNaN (x : float64) : bool :=
  match x with S754_nan => true | _ => false end.

(** [math.IsInf(x, sign)] for [sign] -1 ([true]) and +1 ([false]). *)
Definition IsInf (x : float64) (negative : bool) : bool :=
  match x with S754_infinity s => Bool.eqb s negative | _ => false end.

Definition Signbit (x : float64) : bool :=
  match x with
  | S754_zero s | S754_infinity s | S754_finite s _ _ => s
  | S754_nan => false
  end.

Definition isZero (x : float64) : bool :=
  match x with S754_zero _ => true | _ => false end.

(** [math.Min]. *)
Definition Min (x y : float64) : float64 :=
  if IsInf x true || IsInf y true then S754_infinity true
  else if IsNaN x || IsNaN y then S754_nan
  else if isZero x && f64eq x y then (if Signbit x then x else y)
  else if f64lt x y then x else y.

(** [math.Max]. *)
Definition Max (x y : float64) : float64 :=
  if IsInf x false || IsInf y false then S754_infinity false
  else if IsNaN x || IsNaN y then S754_nan
  else if isZero x && f64eq x y then (if Signbit x then y else x)
  else if f64lt y x then x else y.

(** ** [interface{}] values and type assertions *)

Inductive type := Tfloat64 | Tint | Tuint32 | Tstring.

Inductive any :=
  | Nil
  | Float64 (f : float64)
  | Int (i : Z)
  | Uint32 (u : Z)
  | Str (s : string).

Definition dynamicType (v : any) : option type :=
  match v with
  | Nil => None
  | Float64 _ => Some Tfloat64
  | Int _ => Some Tint
  | Uint32 _ => Some Tuint32
  | Str _ => Some Tstring
  end.

(** [runtime.TypeAssertionError]: the panic of a failed [x.(T)]. *)
Record TypeAssertionError :=
  { asserted : type; concrete : option type }.

(** What a call of a pointer-receiver method leaves behind. *)
Inductive outcome (S : Type) :=
  | Returned (s : S)
  | Panicked (e : TypeAssertionError) (s : S).
Arguments Returned {S} s.
Arguments Panicked {S} e s.

Definition stateOf {S} (o : outcome S) : S :=
  match o with Returned s | Panicked _ s => s end.

Definition panicked {S} (o : outcome S) : bool :=
  match o with Returned _ => false | Panicked _ _ => true end.

(** Calls in sequence: a panic ends the sequence. *)
Definition andThen {S} (o : outcome S) (f : S -> outcome S) : outcome S :=
  match o with
  | Returned s => f s
  | Panicked e s => Panicked e s
  end.

Definition callAll {S} (f : any -> S -> outcome S) (vs : list any) (s : S)
    : outcome S :=
  fold_left (fun o v => andThen o (f v)) vs (Returned s).

(** ** Ranging over a map *)

(** [for k := range m]: the function of the runtime that takes the keys
    of [m] to the order in which the loop visits them. *)
Definition ranger (K : Type) `{Countable K} : Type := gset K -> list K.

(** [ks] is an order in which the loop may visit the keys whose set is
    [keys]: every key once. *)
Definition rangeOrder `{Countable K} (keys : gset K) (ks : list K) : Prop :=
  NoDup ks /\ forall k, k ∈ ks <-> k ∈ keys.

(** ** Ordered types and sorting *)

(** The operator [<] of the types a sort is instantiated at. *)
Class Ordered (T : Type) := less : T -> T -> bool.

#[export] Instance int_Ordered : Ordered Z := Z.ltb.
#[export] Instance string_Ordered : Ordered string := String.ltb.

(** Sorting by insertion, the method of [sort] and [slices] on short
    slices.  On a slice without equal elements, as the keys of a map are,
    every sort by [<] returns the same slice ([sortLess_unique] below), so
    the method does not matter. *)
Fixpoint insertLess `{Ordered T} (x : T) (sorted : list T) : list T :=
  match sorted with
  | [] => [x]
  | y :: rest => if less x y then x :: y :: rest else y :: insertLess x rest
  end.

Definition sortLess `{Ordered T} (s : list T) : list T :=
  fold_right insertLess [] s.

(** ** [fmt]: integers *)

(** [%v] and [%d] of an integer. *)
Definition formatInt (i : Z) : string := NilZero.string_of_int (Z.to_int i).

(** ** [fmt]: floating point, the verb [%v]

    [%v] of a [float64] is [strconv.FormatFloat(x, 'g', -1, 64)]: the
    shortest decimal that rounds back to [x], written with an exponent
    when the decimal exponent is below -4 or at least [eprec]. *)

Local Open Scope Z_scope.

(** A decimal [0.d1 d2 ... dn * 10^dp], as [strconv]'s [decimalSlice]. *)
Record decimalSlice := { d : string; dp : Z }.

Definition nd (ds : decimalSlice) : Z := Z.of_nat (String.length ds.(d)).

Definition digitsOf (n : Z) : string := NilZero.string_of_uint (N.to_uint (Z.to_N n)).

Fixpoint dropZeros (s : string) : string :=
  match s with
  | String "0" rest => dropZeros rest
  | _ => s
  end.

(** Trailing zeros are not digits of the decimal. *)
Definition trimZeros (s : string) : string :=
  String.rev (dropZeros (String.rev s)).

(** The interval of the reals that round to the float [m * 2^e], and the
    float itself, as integers [lower < value < upper] scaled by [10^q].
    The neighbour below is half as far when [m] is the least mantissa of
    a binade above the smallest. *)
Definition roundingInterval (m : positive) (e : Z) : Z * Z * Z * Z :=
  let mant := Zpos m in
  let lower4 :=
    if (mant =? 2 ^ (prec - 1)) && (3 - emax - prec <? e)
    then 4 * mant - 1 else 4 * mant - 2 in
  let upper4 := 4 * mant + 2 in
  if 2 <=? e
  then (lower4 * 2 ^ (e - 2), 4 * mant * 2 ^ (e - 2), upper4 * 2 ^ (e - 2), 0)
  else (lower4 * 5 ^ (2 - e), 4 * mant * 5 ^ (2 - e), upper4 * 5 ^ (2 - e),
        2 - e).

(** The candidates at one unit: the multiple of the unit below [value]
    and the one above.  The one that rounds back is taken, the nearer one
    when both do (on a tie the even one); the bounds themselves round back
    only to an even mantissa. *)
Definition candidate (unit lower value upper : Z) (inclusive : bool)
    : option Z :=
  let down := value / unit in
  let up := down + 1 in
  let okdown :=
    (lower <? down * unit) || (inclusive && (lower =? down * unit)) in
  let okup := (up * unit <? upper) || (inclusive && (up * unit =? upper)) in
  match okdown, okup with
  | true, true =>
      match (2 * (value - down * unit)) ?= unit with
      | Lt => Some down
      | Gt => Some up
      | Eq => Some (if Z.even down then down else up)
      end
  | true, false => Some down
  | false, true => Some up
  | false, false => None
  end.

(** Walk from the first digit of [upper] down: the first unit [10^k] with
    a candidate gives the digits. *)
Fixpoint roundShortest (fuel : nat) (k : Z) (lower value upper : Z)
    (inclusive : bool) : Z * Z :=
  match candidate (10 ^ k) lower value upper inclusive with
  | Some c => (c, k)
  | None =>
      match fuel with
      | O => (value, 0)
      | S fuel' => roundShortest fuel' (k - 1) lower value upper inclusive
      end
  end.

(** The number of decimal digits of [n]: the least [w] from [w0] on with
    [n < 10^w]. *)
Fixpoint widthFrom (fuel : nat) (w0 : Z) (n : Z) : Z :=
  match fuel with
  | O => w0
  | S fuel' => if n <? 10 ^ w0 then w0 else widthFrom fuel' (w0 + 1) n
  end.

Definition decimalWidth (n : Z) : Z :=
  widthFrom (S (Z.to_nat (Z.log2 n))) 0 n.

(** The shortest decimal [mant10 * 10^k], scaled by [10^q], that rounds
    back to the finite, non-zero float [m * 2^e]. *)
Definition shortestDecimal (m : positive) (e : Z) : Z * Z :=
  let '(lower, value, upper, _) := roundingInterval m e in
  let width := decimalWidth upper in
  roundShortest (Z.to_nat width) (width - 1) lower value upper
    (Z.even (Zpos m)).

(** Its digits. *)
Definition shortest (m : positive) (e : Z) : decimalSlice :=
  let '(_, _, _, q) := roundingInterval m e in
  let '(mant10, k) := shortestDecimal m e in
  let ds := digitsOf mant10 in
  {| d := trimZeros ds; dp := Z.of_nat (String.length ds) + k - q |}.

Definition digitAt (ds : decimalSlice) (i : Z) : ascii :=
  if (0 <=? i) && (i <? nd ds)
  then match String.get (Z.to_nat i) ds.(d) with Some c => c | None => "0" end
  else "0"%char.

Fixpoint digitsFrom (ds : decimalSlice) (from : Z) (n : nat) : string :=
  match n with
  | O => EmptyString
  | S n' => String (digitAt ds from) (digitsFrom ds (from + 1) n')
  end.

(** [%e]: [d.ddde+XX], the exponent with at least two digits. *)
Definition fmtE (ds : decimalSlice) (prec' : Z) : string :=
  let exp := if nd ds =? 0 then 0 else ds.(dp) - 1 in
  String (digitAt ds 0)
    ((if 0 <? prec' then "." +:+ digitsFrom ds 1 (Z.to_nat prec') else "")
     +:+ "e" +:+ (if exp <? 0 then "-" else "+")
     +:+ (if Z.abs exp <? 10 then "0" else "") +:+ formatInt (Z.abs exp)).

(** [%f]: the integer part padded with zeros, then the fraction. *)
Definition fmtF (ds : decimalSlice) (prec' : Z) : string :=
  (if 0 <? ds.(dp) then digitsFrom ds 0 (Z.to_nat ds.(dp)) else "0")
  +:+ (if 0 <? prec' then "." +:+ digitsFrom ds ds.(dp) (Z.to_nat prec')
       else "").

(** The precision that decides between [%e] and [%f] for shortest
    digits. *)
Definition eprec : Z := 6.

(** [%g] with the shortest digits. *)
Definition fmtG (ds : decimalSlice) : string :=
  let exp := ds.(dp) - 1 in
  if (exp <? -4) || (eprec <=? exp)
  then fmtE ds (nd ds - 1)
  else fmtF ds (Z.max (nd ds - ds.(dp)) 0).

(** [fmt.Sprintf("%v", x)] for a [float64]. *)
Definition formatFloat (x : float64) : string :=
  match x with
  | S754_nan => "NaN"
  | S754_infinity s => if s then "-Inf" else "+Inf"
  | S754_zero s => (if s then "-" else "") +:+ fmtG {| d := ""; dp := 0 |}
  | S754_finite s m e => (if s then "-" else "") +:+ fmtG (shortest m e)
  end.

(** ** [hash/crc32] *)

(** The IEEE polynomial, reversed. *)
Definition IEEE : Z := 0xedb88320.

Fixpoint crcShift (n : nat) (crc : Z) : Z :=
  match n with
  | O => crc
  | S n' =>
      crcShift n'
        (if Z.land crc 1 =? 1 then Z.lxor (Z.shiftr crc 1) IEEE
         else Z.shiftr crc 1)
  end.

(** Entry [i] of the table of the polynomial. *)
Definition tableIEEE (i : Z) : Z := crcShift 8 i.

Fixpoint updateBytes (crc : Z) (p : string) : Z :=
  match p with
  | EmptyString => crc
  | String b rest =>
      updateBytes
        (Z.lxor (tableIEEE (Z.land (Z.lxor crc (Z.of_N (N_of_ascii b))) 0xff))
           (Z.shiftr crc 8))
        rest
  end.

Definition not32 (x : Z) : Z := Z.lxor x 0xffffffff.

Definition ChecksumIEEE (data : string) : Z :=
  not32 (updateBytes (not32 0) data).

End Go.

(* ===================================================================== *)
(** * metrics.go                                                          *)
(* ===================================================================== *)

Module MetricsGo.
Import Go.

(** [[^a-zA-Z0-9_/.-]+] *)
Definition keyRegex : Regexp :=
  NegatedClassPlus (fun c =>
    byteRange "a" "z" c || byteRange "A" "Z" c || byteRange "0" "9" c
    || byteIn "_/.-" c).

(** [[^\w\d\s_:/@\.{}\[\]$-]+] *)
Definition valueRegex : Regexp :=
  NegatedClassPlus (fun c =>
    class_w c || class_d c || class_s c || byteIn "_:/@.{}[]$-" c).

(** [[^a-z]+] *)
Definition unitRegex : Regexp := NegatedClassPlus (byteRange "a" "z").

(** ** Units *)

Record MetricUnit := { unit : string }.

Definition toString (m : MetricUnit) : string := m.(unit).

Definition NanoSecond : MetricUnit := {| unit := "nanosecond" |}.
Definition MicroSecond : MetricUnit := {| unit := "microsecond" |}.
Definition MilliSecond : MetricUnit := {| unit := "millisecond" |}.
Definition Second : MetricUnit := {| unit := "second" |}.
Definition Minute : MetricUnit := {| unit := "minute" |}.
Definition Hour : MetricUnit := {| unit := "hour" |}.
Definition Day : MetricUnit := {| unit := "day" |}.
Definition Week : MetricUnit := {| unit := "week" |}.
Definition Bit : MetricUnit := {| unit := "bit" |}.
Definition Byte : MetricUnit := {| unit := "byte" |}.
Definition KiloByte : MetricUnit := {| unit := "kilobyte" |}.
Definition KibiByte : MetricUnit := {| unit := "kibibyte" |}.
Definition MegaByte : MetricUnit := {| unit := "megabyte" |}.
Definition MebiByte : MetricUnit := {| unit := "mebibyte" |}.
Definition GigaByte : MetricUnit := {| unit := "gigabyte" |}.
Definition GibiByte : MetricUnit := {| unit := "gibibyte" |}.
Definition TeraByte : MetricUnit := {| unit := "terabyte" |}.
Definition TebiByte : MetricUnit := {| unit := "tebibyte" |}.
Definition PetaByte : MetricUnit := {| unit := "petabyte" |}.
Definition PebiByte : MetricUnit := {| unit := "pebibyte" |}.
Definition ExaByte : MetricUnit := {| unit := "exabyte" |}.
Definition ExbiByte : MetricUnit := {| unit := "exbibyte" |}.
Definition Ratio : MetricUnit := {| unit := "ratio" |}.
Definition Percent : MetricUnit := {| unit := "percent" |}.

Definition CustomUnit (unit : string) : MetricUnit :=
  {| unit := ReplaceAllString unitRegex unit "" |}.

(** ** Sanitizers, sorting, tags *)

Definition sanitizeKey (s : string) : string :=
  ReplaceAllString keyRegex s "_".

Definition sanitizeValue (s : string) : string :=
  ReplaceAllString valueRegex s "".

(** [sort.Slice] with [s[i] < s[j]]. *)
Definition sortSlice `{Ordered T} (s : list T) : list T := sortLess s.

(** [s[:len(s)-1]] of a string that is not empty. *)
Fixpoint dropLast (s : string) : string :=
  match s with
  | EmptyString => EmptyString
  | String _ EmptyString => EmptyString
  | String c rest => String c (dropLast rest)
  end.

(** [tags[key]]: the zero value for a key that is absent. *)
Definition index (tags : gmap string string) (key : string) : string :=
  default "" (tags !! key).

Definition serializeTags (range : ranger string) (tags : gmap string string)
    : string :=
  let values := sortSlice (range (dom tags)) in
  let s :=
    fold_left
      (fun sb key =>
         let val := sanitizeValue (index tags key) in
         let key := sanitizeKey key in
         sb +:+ (key +:+ ":" +:+ val +:+ ","))
      values "" in
  if (0 <? String.length s)%nat then dropLast s else s.

Definition setStringKeyToInt (s : string) : Z := ChecksumIEEE s.

(** ** The identity shared by the four metrics *)

Module abstractMetric.
Record t := {
  key : string;
  unit : MetricUnit;
  tags : gmap string string;
  timestamp : Z
}.

Definition GetTags (am : t) : gmap string string := am.(tags).
Definition GetKey (am : t) : string := am.(key).
Definition GetUnit (am : t) : string := toString am.(unit).
Definition GetTimestamp (am : t) : Z := am.(timestamp).
Definition SerializeTags (range : ranger string) (am : t) : string :=
  serializeTags range am.(tags).
End abstractMetric.

(** ** Counter *)

Module CounterMetric.
Record t := { value : float64; am : abstractMetric.t }.

Definition Add (value' : any) (c : t) : outcome t :=
  match value' with
  | Float64 v => Returned {| value := f64add c.(value) v; am := c.(am) |}
  | _ =>
      Panicked
        {| asserted := Tfloat64; concrete := dynamicType value' |} c
  end.

Definition GetType (c : t) : string := "c".
Definition GetWeight (c : t) : Z := 1.
Definition SerializeValue (c : t) : string :=
  ":" +:+ formatFloat c.(value).

Definition GetTags (c : t) := abstractMetric.GetTags c.(am).
Definition GetKey (c : t) := abstractMetric.GetKey c.(am).
Definition GetUnit (c : t) := abstractMetric.GetUnit c.(am).
Definition GetTimestamp (c : t) := abstractMetric.GetTimestamp c.(am).
End CounterMetric.

Definition NewCounterMetric (key : string) (unit : MetricUnit)
    (tags : gmap string string) (timestamp : Z) (value : float64)
    : CounterMetric.t :=
  let am :=
    {| abstractMetric.key := key; abstractMetric.unit := unit;
       abstractMetric.tags := tags; abstractMetric.timestamp := timestamp |} in
  {| CounterMetric.value := value; CounterMetric.am := am |}.

(** ** Distribution *)

Module DistributionMetric.
Record t := { values : list float64; am : abstractMetric.t }.

Definition Add (value : any) (d : t) : outcome t :=
  match value with
  | Float64 v => Returned {| values := d.(values) ++ [v]; am := d.(am) |}
  | _ =>
      Panicked
        {| asserted := Tfloat64; concrete := dynamicType value |} d
  end.

Definition GetType (d : t) : string := "d".
Definition GetWeight (d : t) : Z := Z.of_nat (length d.(values)).
Definition SerializeValue (d : t) : string :=
  fold_left (fun sb el => sb +:+ (":" +:+ formatFloat el)) d.(values) "".

Definition GetTags (d : t) := abstractMetric.GetTags d.(am).
Definition GetKey (d : t) := abstractMetric.GetKey d.(am).
Definition GetUnit (d : t) := abstractMetric.GetUnit d.(am).
Definition GetTimestamp (d : t) := abstractMetric.GetTimestamp d.(am).
End DistributionMetric.

Definition NewDistributionMetric (key : string) (unit : MetricUnit)
    (tags : gmap string string) (timestamp : Z) (value : float64)
    : DistributionMetric.t :=
  let am :=
    {| abstractMetric.key := key; abstractMetric.unit := unit;
       abstractMetric.tags := tags; abstractMetric.timestamp := timestamp |} in
  {| DistributionMetric.values := [value]; DistributionMetric.am := am |}.

(** ** Gauge *)

Module GaugeMetric.
Record t := {
  last : float64;
  min : float64;
  max : float64;
  sum : float64;
  count : float64;
  am : abstractMetric.t
}.

Definition Add (value : any) (g : t) : outcome t :=
  match value with
  | Float64 v =>
      Returned
        {| last := v;
           min := Min g.(min) v;
           max := Max g.(max) v;
           sum := f64add g.(sum) v;
           count := f64add g.(count) (f64 1 0);
           am := g.(am) |}
  | _ =>
      Panicked
        {| asserted := Tfloat64; concrete := dynamicType value |} g
  end.

Definition GetType (g : t) : string := "g".
Definition GetWeight (g : t) : Z := 5.
Definition SerializeValue (g : t) : string :=
  ":" +:+ formatFloat g.(last) +:+ ":" +:+ formatFloat g.(min)
  +:+ ":" +:+ formatFloat g.(max) +:+ ":" +:+ formatFloat g.(sum)
  +:+ ":" +:+ formatFloat g.(count).

Definition GetTags (g : t) := abstractMetric.GetTags g.(am).
Definition GetKey (g : t) := abstractMetric.GetKey g.(am).
Definition GetUnit (g : t) := abstractMetric.GetUnit g.(am).
Definition GetTimestamp (g : t) := abstractMetric.GetTimestamp g.(am).
End GaugeMetric.

Definition NewGaugeMetric (key : string) (unit : MetricUnit)
    (tags : gmap string string) (timestamp : Z) (value : float64)
    : GaugeMetric.t :=
  let am :=
    {| abstractMetric.key := key; abstractMetric.unit := unit;
       abstractMetric.tags := tags; abstractMetric.timestamp := timestamp |} in
  {| GaugeMetric.last := value;
     GaugeMetric.min := value;
     GaugeMetric.max := value;
     GaugeMetric.sum := value;
     GaugeMetric.count := value;
     GaugeMetric.am := am |}.

(** ** Set *)

Module SetMetric.
Record t := { values : gset Z; am : abstractMetric.t }.

Definition Add (value : any) (s : t) : outcome t :=
  match value with
  | Int v => Returned {| values := {[v]} ∪ s.(values); am := s.(am) |}
  | _ =>
      Panicked {| asserted := Tint; concrete := dynamicType value |} s
  end.

Definition GetType (s : t) : string := "s".
Definition GetWeight (s : t) : Z := Z.of_nat (size s.(values)).

Definition SerializeValue (range : ranger Z) (s : t) : string :=
  let values := sortSlice (range s.(values)) in
  fold_left (fun sb el => sb +:+ (":" +:+ formatInt el)) values "".

Definition GetTags (s : t) := abstractMetric.GetTags s.(am).
Definition GetKey (s : t) := abstractMetric.GetKey s.(am).
Definition GetUnit (s : t) := abstractMetric.GetUnit s.(am).
Definition GetTimestamp (s : t) := abstractMetric.GetTimestamp s.(am).
End SetMetric.

(** The type parameter [T] is not used by the function. *)
Definition NewSetMetric (T : Type) (key : string) (unit : MetricUnit)
    (tags : gmap string string) (timestamp : Z) (value : Z) : SetMetric.t :=
  let am :=
    {| abstractMetric.key := key; abstractMetric.unit := unit;
       abstractMetric.tags := tags; abstractMetric.timestamp := timestamp |} in
  {| SetMetric.values := {[value]}; SetMetric.am := am |}.

End MetricsGo.


(* ===================================================================== *)
(** * The generic revision of the file (src/unnamed/part_000)             *)
(* ===================================================================== *)

Module Part000.
Import Go.
Local Open Scope Z_scope.

(** ** Units *)

Definition MetricUnit : Type := Z.

Definition NanoSecond : MetricUnit := 0.
Definition MicroSecond : MetricUnit := 1.
Definition MilliSecond : MetricUnit := 2.
Definition Second : MetricUnit := 3.
Definition Minute : MetricUnit := 4.
Definition Hour : MetricUnit := 5.
Definition Day : MetricUnit := 6.
Definition Week : MetricUnit := 7.
Definition Bit : MetricUnit := 8.
Definition Byte : MetricUnit := 9.
Definition KiloByte : MetricUnit := 10.
Definition KibiByte : MetricUnit := 11.
Definition MegaByte : MetricUnit := 12.
Definition MebiByte : MetricUnit := 13.
Definition GigaByte : MetricUnit := 14.
Definition GibiByte : MetricUnit := 15.
Definition TeraByte : MetricUnit := 16.
Definition TebiByte : MetricUnit := 17.
Definition PetaByte : MetricUnit := 18.
Definition PebiByte : MetricUnit := 19.
Definition ExaByte : MetricUnit := 20.
Definition ExbiByte : MetricUnit := 21.
Definition Ratio : MetricUnit := 22.
Definition Percent : MetricUnit := 23.

Definition toString (m : MetricUnit) : string :=
  match m with
  | 0 => "nanosecond"
  | 1 => "microsecond"
  | 2 => "millisecond"
  | 3 => "second"
  | 4 => "minute"
  | 5 => "hour"
  | 6 => "day"
  | 7 => "week"
  | 8 => "bit"
  | 9 => "byte"
  | 10 => "kilobyte"
  | 11 => "kibibyte"
  | 12 => "megabyte"
  | 13 => "mebibyte"
  | 14 => "gigabyte"
  | 15 => "gibibyte"
  | 16 => "terabyte"
  | 17 => "tebibyte"
  | 18 => "petabyte"
  | 19 => "pebibyte"
  | 20 => "exabyte"
  | 21 => "exbibyte"
  | 22 => "ratio"
  | 23 => "percent"
  | _ => "error"
  end.

(** ** Sanitizers *)

(** [[^a-zA-Z0-9_/.-]+], compiled at each call. *)
Definition sanitizeKey (s : string) : string :=
  let re :=
    NegatedClassPlus (fun c =>
      byteRange "a" "z" c || byteRange "A" "Z" c || byteRange "0" "9" c
      || byteIn "_/.-" c) in
  ReplaceAllString re s "_".

(** [[^\w\d_:/@\.{}\[\]$-]+], compiled at each call. *)
Definition sanitizeValue (s : string) : string :=
  let re :=
    NegatedClassPlus (fun c =>
      class_w c || class_d c || byteIn "_:/@.{}[]$-" c) in
  ReplaceAllString re s "_".

(** ** The identity shared by the four metrics *)

Module abstractMetric.
Record t := {
  key : string;
  unit : MetricUnit;
  tags : gmap string string;
  timestamp : Z
}.

Definition GetTags (am : t) : gmap string string := am.(tags).
Definition GetKey (am : t) : string := am.(key).
Definition GetUnit (am : t) : string := toString am.(unit).
Definition GetTimestamp (am : t) : Z := am.(timestamp).

(** The entries are written in the order of the loop. *)
Definition serializeTags (range : ranger string) (am : t) : string :=
  let s :=
    fold_left
      (fun sb key =>
         let val := MetricsGo.index am.(tags) key in
         let key := sanitizeKey key in
         let val := sanitizeValue val in
         sb +:+ (key +:+ ":" +:+ val +:+ ","))
      (range (dom am.(tags))) "" in
  if (0 <? String.length s)%nat then MetricsGo.dropLast s else s.
End abstractMetric.

(** ** Counter *)

Module CounterMetric.
Record t := { value : float64; am : abstractMetric.t }.

Definition Add (value' : float64) (c : t) : t :=
  {| value := f64add c.(value) value'; am := c.(am) |}.

Definition GetType (c : t) : string := "c".
Definition SerializeValue (c : t) : string := formatFloat c.(value).
End CounterMetric.

Definition NewCounterMetric (key : string) (unit : MetricUnit)
    (tags : gmap string string) (timestamp : Z) (value : float64)
    : CounterMetric.t :=
  let am :=
    {| abstractMetric.key := key; abstractMetric.unit := unit;
       abstractMetric.tags := tags; abstractMetric.timestamp := timestamp |} in
  {| CounterMetric.value := value; CounterMetric.am := am |}.

(** ** Distribution *)

Module DistributionMetric.
Record t := { values : list float64; am : abstractMetric.t }.

Definition Add (value : float64) (d : t) : t :=
  {| values := d.(values) ++ [value]; am := d.(am) |}.

Definition GetType (d : t) : string := "d".
Definition SerializeValue (d : t) : string :=
  fold_left (fun sb el => sb +:+ (":" +:+ formatFloat el)) d.(values) "".
End DistributionMetric.

Definition NewDistributionMetric (key : string) (unit : MetricUnit)
    (tags : gmap string string) (timestamp : Z) (value : float64)
    : DistributionMetric.t :=
  let am :=
    {| abstractMetric.key := key; abstractMetric.unit := unit;
       abstractMetric.tags := tags; abstractMetric.timestamp := timestamp |} in
  {| DistributionMetric.values := [value]; DistributionMetric.am := am |}.

(** ** Gauge *)

Module GaugeMetric.
Record t := {
  last : float64;
  min : float64;
  max : float64;
  sum : float64;
  count : float64;
  am : abstractMetric.t
}.

Definition Add (value : float64) (g : t) : t :=
  {| last := value;
     min := Min g.(min) value;
     max := Max g.(max) value;
     sum := f64add g.(sum) value;
     count := f64add g.(count) (f64 1 0);
     am := g.(am) |}.

Definition GetType (g : t) : string := "g".
Definition SerializeValue (g : t) : string :=
  ":" +:+ formatFloat g.(last) +:+ ":" +:+ formatFloat g.(min)
  +:+ ":" +:+ formatFloat g.(max) +:+ ":" +:+ formatFloat g.(sum)
  +:+ ":" +:+ formatFloat g.(count).
End GaugeMetric.

Definition NewGaugeMetric (key : string) (unit : MetricUnit)
    (tags : gmap string string) (timestamp : Z) (value : float64)
    : GaugeMetric.t :=
  let am :=
    {| abstractMetric.key := key; abstractMetric.unit := unit;
       abstractMetric.tags := tags; abstractMetric.timestamp := timestamp |} in
  {| GaugeMetric.last := value;
     GaugeMetric.min := value;
     GaugeMetric.max := value;
     GaugeMetric.sum := value;
     GaugeMetric.count := value;
     GaugeMetric.am := am |}.

(** ** Set *)

(** The constraint [int | string]: a type that is a map key, has [<], and
    whose values convert to [any]. *)
Class NumberOrString (T : Type) `{Countable T} := {
  ordered :: Ordered T;
  toAny : T -> any
}.

#[export] Instance int_NumberOrString : NumberOrString Z :=
  {| ordered := int_Ordered; toAny := Int |}.
#[export] Instance string_NumberOrString : NumberOrString string :=
  {| ordered := string_Ordered; toAny := Str |}.

Module SetMetric.
Section Generic.
Context {T : Type} `{NumberOrString T}.

Record t := { values : gset T; am : abstractMetric.t }.

Definition Add (value : T) (s : t) : t :=
  {| values := {[value]} ∪ s.(values); am := s.(am) |}.

Definition GetType (s : t) : string := "s".

Definition _hash (s : string) : Z := ChecksumIEEE s.

(** What the type switch on [any(el)] writes for one element. *)
Definition writeElement (el : T) : string :=
  match toAny el with
  | Int i => ":" +:+ formatInt i
  | Str s => ":" +:+ formatInt (_hash s)
  | _ => ""
  end.

(** [slices.Sort] orders the keys by [<]. *)
Definition SerializeValue (range : ranger T) (s : t) : string :=
  let values := sortLess (range s.(values)) in
  fold_left (fun sb el => sb +:+ writeElement el) values "".
End Generic.
Arguments t T {_ _}.
End SetMetric.

Definition NewSetMetric {T : Type} `{NumberOrString T} (key : string)
    (unit : MetricUnit) (tags : gmap string string) (timestamp : Z)
    (value : T) : SetMetric.t T :=
  let am :=
    {| abstractMetric.key := key; abstractMetric.unit := unit;
       abstractMetric.tags := tags; abstractMetric.timestamp := timestamp |} in
  {| SetMetric.values := {[value]}; SetMetric.am := am |}.

End Part000.


(* ===================================================================== *)
(** * Vocabulary of the statements                                        *)
(* ===================================================================== *)

Module Wire.
Import Go.

(** Every byte of [s] is in the class that [re] negates. *)
Fixpoint allInClass (re : Regexp) (s : string) : bool :=
  match s with
  | EmptyString => true
  | String c rest => class re c && allInClass re rest
  end.

(** [s] without the bytes that [keep] rejects. *)
Fixpoint keepBytes (keep : ascii -> bool) (s : string) : string :=
  match s with
  | EmptyString => EmptyString
  | String c rest =>
      if keep c then String c (keepBytes keep rest) else keepBytes keep rest
  end.

(** The number of bytes of [s] that [p] accepts. *)
Fixpoint countBytes (p : ascii -> bool) (s : string) : nat :=
  match s with
  | EmptyString => 0
  | String c rest => (if p c then 1 else 0) + countBytes p rest
  end.

(** The strings of [l] one after the other. *)
Definition concatAll (l : list string) : string :=
  fold_right String.append "" l.

(** The strings of [l] with [sep] between neighbours. *)
Fixpoint joinWith (sep : string) (l : list string) : string :=
  match l with
  | [] => ""
  | [x] => x
  | x :: rest => x +:+ sep +:+ joinWith sep rest
  end.

(** Strictly ascending for [<]. *)
Definition ascending `{Ordered T} (l : list T) : Prop :=
  StronglySorted (fun a b => less a b = true) l.

(** [a] is not after [b]. *)
Definition notAfter `{Ordered T} (a b : T) : Prop := less b a = false.

(** Ascending for the order of the images under [key]. *)
Definition ascendingOn `{Ordered K} {T} (key : T -> K) (l : list T) : Prop :=
  StronglySorted (fun a b => notAfter (key a) (key b)) l.

(** The last byte of a string. *)
Fixpoint lastByte (s : string) : option ascii :=
  match s with
  | EmptyString => None
  | String c EmptyString => Some c
  | String _ rest => lastByte rest
  end.

(** [<] is a strict total order. *)
Class StrictTotal (T : Type) `{Ordered T} : Prop := {
  less_asym : forall x y : T, less x y = true -> less y x = false;
  less_trans : forall x y z : T,
    less x y = true -> less y z = true -> less x z = true;
  less_total : forall x y : T, less x y = false -> less y x = false -> x = y
}.

(** One entry [key:value] of the serialized tags of [metrics.go]. *)
Definition tagEntry (kv : string * string) : string :=
  MetricsGo.sanitizeKey kv.1 +:+ ":" +:+ MetricsGo.sanitizeValue kv.2.

(** The entry of [tags] that [range] yields with the key [k]. *)
Definition entryOf (tags : gmap string string) (k : string)
    : string * string :=
  (k, MetricsGo.index tags k).

(** The class of [sanitizeValue] in the generic revision. *)
Definition valueRegex000 : Regexp :=
  NegatedClassPlus (fun c =>
    class_w c || class_d c || byteIn "_:/@.{}[]$-" c).

(** The decimal [x], scaled as the bounds are, rounds to the float
    between them: it is inside the bounds, or on one of them when the
    mantissa of the float is even. *)
Definition roundsBack (lower upper : Z) (inclusive : bool) (x : Z) : Prop :=
  (lower < x < upper)%Z
  \/ (inclusive = true /\ (x = lower \/ x = upper)).

(** The decimal rendering of an integer element, after the colon. *)
Definition renderInt (i : Z) : string := ":" +:+ formatInt i.

(** The decimal rendering of the CRC-32 of a string element. *)
Definition renderHash (s : string) : string :=
  ":" +:+ formatInt (ChecksumIEEE s).

(** A piece of a string that is cut at the runs of a class: bytes of the
    class, which a replacement keeps, or a run of bytes outside it, which
    it replaces as a whole. *)
Inductive piece := Kept (s : string) | Run (s : string).

Definition isRun (p : piece) : bool :=
  match p with Run _ => true | Kept _ => false end.

Definition bytesOf (p : piece) : string :=
  match p with Kept s | Run s => s end.

(** A piece is not empty, and its bytes are all in the class, or all
    outside it, as its kind says. *)
Definition wellCut (allowed : ascii -> bool) (p : piece) : bool :=
  match p with
  | Kept s =>
      negb (String.eqb s "")
      && (countBytes (fun c => negb (allowed c)) s =? 0)%nat
  | Run s => negb (String.eqb s "") && (countBytes allowed s =? 0)%nat
  end.

(** Neighbours are of different kinds: every run is maximal. *)
Fixpoint alternating (ps : list piece) : bool :=
  match ps with
  | p :: (q :: _) as rest =>
      negb (Bool.eqb (isRun p) (isRun q)) && alternating rest
  | _ => true
  end.

(** [ps] is a string cut at its maximal runs of bytes outside the class. *)
Definition cutAtRuns (allowed : ascii -> bool) (ps : list piece) : bool :=
  forallb (wellCut allowed) ps && alternating ps.

(** The string that was cut. *)
Definition uncut (ps : list piece) : string := concatAll (map bytesOf ps).

(** The string with [repl] in the place of every run. *)
Definition withRuns (repl : string) (ps : list piece) : string :=
  concatAll (map (fun p => match p with Kept s => s | Run _ => repl end) ps).

(** The bytes that [sanitizeValue] of the generic revision keeps, and those
    of [metrics.go]: the same and white space. *)
Definition valueByte000 (c : ascii) : bool := class valueRegex000 c.
Definition valueByteGo (c : ascii) : bool := valueByte000 c || class_s c.

(** Every byte of [s] satisfies [p]. *)
Definition everyByte (p : ascii -> bool) (s : string) : bool :=
  allInClass (NegatedClassPlus p) s.

(** The bytes of which [%v] makes the text of a [float64]. *)
Definition floatByte (c : ascii) : bool := byteIn "0123456789+-.eInfNa" c.

(** What the text of a number says: [Decimal negative n k] is the number
    [n * 10^k] with a minus sign when [negative]. *)
Inductive reading :=
  | NotANumber
  | Infinite (negative : bool)
  | Decimal (negative : bool) (n k : Z).

(** The value of a decimal digit. *)
Definition digitValue (c : ascii) : option Z :=
  if class_d c then Some (Z.of_N (N_of_ascii c) - 48)%Z else None.

(** The digits at the front of [s], read as a number that continues [acc]:
    the number, how many digits were read, and what follows them. *)
Fixpoint readDigits (acc : Z) (s : string) : Z * nat * string :=
  match s with
  | EmptyString => (acc, 0%nat, EmptyString)
  | String c rest =>
      match digitValue c with
      | Some v =>
          let '(n, len, rest') := readDigits (10 * acc + v)%Z rest in
          (n, S len, rest')
      | None => (acc, 0%nat, s)
      end
  end.

(** The exponent [e+XX] or [e-XX] at the end of a number, or nothing. *)
Definition readExponent (s : string) : option Z :=
  match s with
  | EmptyString => Some 0%Z
  | String "e" (String sign digits) =>
      match readDigits 0 digits with
      | (n, S _, EmptyString) =>
          if Ascii.eqb sign "+" then Some n
          else if Ascii.eqb sign "-" then Some (- n)%Z
          else None
      | _ => None
      end
  | _ => None
  end.

(** An unsigned decimal [ddd], [ddd.ddd], [ddde+XX] or [ddd.ddde+XX] is the
    number [n * 10^k]. *)
Definition readUnsigned (s : string) : option (Z * Z) :=
  match readDigits 0 s with
  | (_, O, _) => None
  | (i, S _, String "." fraction) =>
      match readDigits i fraction with
      | (_, O, _) => None
      | (n, S len, rest) =>
          option_map (fun e => (n, e - Z.of_nat (S len))%Z) (readExponent rest)
      end
  | (i, S _, rest) => option_map (fun e => (i, e)) (readExponent rest)
  end.

(** What the text of a number says, for the texts that [%v] writes: [NaN],
    [+Inf], [-Inf], or a decimal with an optional minus sign. *)
Definition readFloat (s : string) : option reading :=
  if String.eqb s "NaN" then Some NotANumber
  else if String.eqb s "+Inf" then Some (Infinite false)
  else if String.eqb s "-Inf" then Some (Infinite true)
  else
    match s with
    | String "-" rest =>
        option_map (fun nk => Decimal true nk.1 nk.2) (readUnsigned rest)
    | _ => option_map (fun nk => Decimal false nk.1 nk.2) (readUnsigned s)
    end.

(** The number that the digits of [s] make when they continue [acc]. *)
Fixpoint number (acc : Z) (s : string) : Z :=
  match s with
  | EmptyString => acc
  | String c rest => number (10 * acc + (Z.of_N (N_of_ascii c) - 48))%Z rest
  end.

(** [n] zeros. *)
Fixpoint zeros (n : nat) : string :=
  match n with
  | O => EmptyString
  | S n' => String "0" (zeros n')
  end.

(** No digit is at the front of [s]. *)
Definition stops (s : string) : bool :=
  match s with
  | EmptyString => true
  | String c _ => negb (class_d c)
  end.

(** The number [m * 2^e], and the number [n * 10^k]. *)
Definition valueOf (m e : Z) : Q := (inject_Z m * 2 ^ e)%Q.
Definition decimalValue (n k : Z) : Q := (inject_Z n * 10 ^ k)%Q.

(** [m * 2^e] is the magnitude of a number of binary64: zero, or [m] is a
    mantissa of 53 bits, or of fewer at the least exponent -1074.  The
    exponent is not bounded above: rounding comes before overflow. *)
Definition inFormat (m e : Z) : Prop :=
  m = 0%Z
  \/ exists p : positive, m = Zpos p /\ canonical_mantissa prec emax p e = true.

(** Rounding to nearest, ties to even, of a magnitude: [q] rounds to
    [m * 2^e] when every other number of the format is farther from [q],
    or as far, the mantissa [m] being even. *)
Definition roundsTo (q : Q) (m : positive) (e : Z) : Prop :=
  forall m' e' : Z, inFormat m' e' ->
    ~ (valueOf m' e' == valueOf (Zpos m) e)%Q ->
    (Qabs (q - valueOf (Zpos m) e) < Qabs (q - valueOf m' e'))%Q
    \/ ((Qabs (q - valueOf (Zpos m) e) == Qabs (q - valueOf m' e'))%Q
        /\ Z.even (Zpos m) = true).

(** [q] is a shortest decimal that rounds to the float [m * 2^e]: it
    rounds to it, it has a notation [c * 10^K] with [c] of at most [w]
    digits, and no decimal that rounds to the float has a notation of
    fewer. *)
Definition shortestFor (q : Q) (m : positive) (e : Z) : Prop :=
  roundsTo q m e
  /\ exists w c K : Z,
       (0 < c < 10 ^ w)%Z /\ (q == decimalValue c K)%Q
       /\ forall w' c' K' : Z,
            (0 <= c' < 10 ^ w')%Z -> roundsTo (decimalValue c' K') m e ->
            (w <= w')%Z.

(** The reading [r] is right for the [float64] [x]: the same sign, and for
    a finite [x] other than zero a shortest decimal that rounds to it. *)
Definition readsAs (r : reading) (x : float64) : Prop :=
  match x, r with
  | S754_nan, NotANumber => True
  | S754_infinity s, Infinite s' => s' = s
  | S754_zero s, Decimal s' n _ => s' = s /\ n = 0%Z
  | S754_finite s m e, Decimal s' n k =>
      s' = s /\ shortestFor (decimalValue n k) m e
  | _, _ => False
  end.

End Wire.

(* ===================================================================== *)
(** * Strings, replacement and sorting                                    *)
(* ===================================================================== *)

Import Go Wire.

Section StringFacts.

Lemma append_cons (c : ascii) (s1 s2 : string) :
  String c s1 +:+ s2 = String c (s1 +:+ s2).
Proof. reflexivity. Qed.

Lemma append_nil_l (s : string) : "" +:+ s = s.
Proof. reflexivity. Qed.

Lemma append_nil_r (s : string) : s +:+ "" = s.
Proof.
  induction s as [|c s IH]; [reflexivity|]. by rewrite append_cons, IH.
Qed.

Lemma append_assoc (s1 s2 s3 : string) :
  (s1 +:+ s2) +:+ s3 = s1 +:+ (s2 +:+ s3).
Proof.
  induction s1 as [|c s1 IH]; [reflexivity|].
  by rewrite !append_cons, IH.
Qed.

Lemma length_append (s1 s2 : string) :
  String.length (s1 +:+ s2) = String.length s1 + String.length s2.
Proof.
  induction s1 as [|c s1 IH]; [reflexivity|].
  rewrite append_cons. cbn. by rewrite IH.
Qed.

End StringFacts.

Section Replacement.
Variable re : Regexp.

Lemma replaceRuns_fixed (repl : string) (b : bool) (s : string) :
  allInClass re s = true -> replaceRuns re repl b s = s.
Proof.
  revert b. induction s as [|c s IH]; intros b Hs; [reflexivity|].
  cbn in Hs. apply andb_true_iff in Hs as [Hc Hs].
  cbn. rewrite Hc. f_equal. by apply IH.
Qed.

Lemma allInClass_append (s1 s2 : string) :
  allInClass re (s1 +:+ s2) = allInClass re s1 && allInClass re s2.
Proof.
  induction s1 as [|c s1 IH]; [reflexivity|].
  rewrite append_cons. cbn. rewrite IH. by rewrite andb_assoc.
Qed.

Lemma replaceRuns_allInClass (repl : string) (b : bool) (s : string) :
  allInClass re repl = true -> allInClass re (replaceRuns re repl b s) = true.
Proof.
  intros Hrepl. revert b. induction s as [|c s IH]; intros b; [reflexivity|].
  cbn. destruct (class re c) eqn:Hc.
  - cbn. rewrite Hc. apply IH.
  - destruct b; [apply IH|].
    rewrite allInClass_append, Hrepl. apply IH.
Qed.

(** Replacing twice is replacing once, when the replacement is made of
    bytes of the class. *)
Lemma ReplaceAllString_idempotent (repl s : string) :
  allInClass re repl = true ->
  ReplaceAllString re (ReplaceAllString re s repl) repl
  = ReplaceAllString re s repl.
Proof.
  intros Hrepl. unfold ReplaceAllString.
  apply replaceRuns_fixed. by apply replaceRuns_allInClass.
Qed.

(** Replacing by the empty string keeps exactly the bytes of the class. *)
Lemma replaceRuns_empty (b : bool) (s : string) :
  replaceRuns re "" b s = keepBytes (class re) s.
Proof.
  revert b. induction s as [|c s IH]; intros b; [reflexivity|].
  cbn. destruct (class re c); [by rewrite IH|].
  destruct b; apply IH.
Qed.

Lemma keepBytes_allInClass (s : string) :
  allInClass re (keepBytes (class re) s) = true.
Proof.
  induction s as [|c s IH]; [reflexivity|].
  cbn. destruct (class re c) eqn:Hc; [|exact IH].
  cbn. by rewrite Hc.
Qed.

Lemma keepBytes_none (s : string) :
  countBytes (class re) s = 0 -> keepBytes (class re) s = "".
Proof.
  induction s as [|c s IH]; [reflexivity|].
  cbn. destruct (class re c); [discriminate|]. exact IH.
Qed.

Lemma length_keepBytes (s : string) :
  String.length (keepBytes (class re) s) = countBytes (class re) s.
Proof.
  induction s as [|c s IH]; [reflexivity|].
  cbn. destruct (class re c); cbn; by rewrite IH.
Qed.

End Replacement.

(** The two instantiations of [<] are strict total orders. *)

#[export] Instance int_StrictTotal : StrictTotal Z.
Proof.
  split; unfold less, int_Ordered; intros; lia.
Qed.

Lemma string_ltb_false (s1 s2 : string) :
  String.ltb s1 s2 = false <-> String.le s2 s1.
Proof.
  unfold String.le, String.leb, String.ltb.
  rewrite (String.compare_antisym s1 s2).
  destruct (String.compare s2 s1); cbn; split; intros Hc;
    first [done | discriminate Hc | destruct Hc].
Qed.

Lemma string_ltb_true (s1 s2 : string) :
  String.ltb s1 s2 = true <-> String.le s1 s2 /\ s1 <> s2.
Proof.
  split.
  - intros Hlt. split.
    + unfold String.le, String.leb. unfold String.ltb in Hlt.
      by destruct (String.compare s1 s2).
    + intros ->. unfold String.ltb in Hlt.
      assert (String.compare s2 s2 = Eq) as Heq
        by (pose proof (String.compare_antisym s2 s2) as Ha;
            destruct (String.compare s2 s2); done).
      by rewrite Heq in Hlt.
  - intros [Hle Hne]. destruct (String.ltb s1 s2) eqn:Hlt; [done|].
    apply string_ltb_false in Hlt. destruct Hne.
    by apply (anti_symm String.le).
Qed.

#[export] Instance string_StrictTotal : StrictTotal string.
Proof.
  split; unfold less, string_Ordered.
  - intros x y [Hxy Hne]%string_ltb_true. by apply string_ltb_false.
  - intros x y z [Hxy Hne1]%string_ltb_true [Hyz Hne2]%string_ltb_true.
    apply string_ltb_true. split; [by etrans|].
    intros ->. apply Hne1. by apply (anti_symm String.le).
  - intros x y Hxy%string_ltb_false Hyx%string_ltb_false.
    by apply (anti_symm String.le).
Qed.

Section Sorting.
Context {T : Type} `{StrictTotal T}.

Lemma notAfter_trans (a b c : T) : notAfter a b -> notAfter b c -> notAfter a c.
Proof.
  unfold notAfter. intros Hab Hbc.
  destruct (less c a) eqn:Hca; [|done].
  destruct (less a b) eqn:Hlt.
  - by rewrite (less_trans c a b) in Hbc.
  - assert (a = b) as -> by (by apply less_total). congruence.
Qed.

Lemma insertLess_Permutation (x : T) (l : list T) : insertLess x l ≡ₚ x :: l.
Proof.
  induction l as [|y l IH]; [done|].
  cbn. destruct (less x y); [done|].
  rewrite IH. apply Permutation_swap.
Qed.

Lemma sortLess_Permutation (l : list T) : sortLess l ≡ₚ l.
Proof.
  induction l as [|x l IH]; [done|].
  cbn. rewrite insertLess_Permutation. by rewrite IH.
Qed.

Lemma insertLess_sorted (x : T) (l : list T) :
  StronglySorted notAfter l -> StronglySorted notAfter (insertLess x l).
Proof.
  induction 1 as [|y l Hl IH Hy]; cbn.
  - repeat constructor.
  - destruct (less x y) eqn:Hxy.
    + constructor; [by constructor|].
      assert (notAfter x y) as Hn by (by apply less_asym).
      constructor; [done|].
      eapply Forall_impl; [exact Hy|]. intros z Hz.
      by apply (notAfter_trans x y z).
    + constructor; [done|].
      rewrite insertLess_Permutation. by constructor.
Qed.

Lemma sortLess_sorted (l : list T) : StronglySorted notAfter (sortLess l).
Proof.
  induction l as [|x l IH]; cbn; [constructor|]. by apply insertLess_sorted.
Qed.

(** The sorted slice depends on the elements only, not on their order. *)
Lemma sortLess_unique (l1 l2 : list T) : l1 ≡ₚ l2 -> sortLess l1 = sortLess l2.
Proof.
  intros Hp.
  apply (StronglySorted_unique_strong notAfter);
    [|apply sortLess_sorted..|by rewrite !sortLess_Permutation].
  intros x y _ _ Hxy Hyx. by apply less_total.
Qed.

Lemma sorted_NoDup_ascending (l : list T) :
  NoDup l -> StronglySorted notAfter l -> ascending l.
Proof.
  intros Hnd Hs. induction Hs as [|x l Hl IH Hx]; [constructor|].
  apply NoDup_cons in Hnd as [Hx' Hnd].
  constructor; [by apply IH|].
  apply Forall_forall. intros y Hy.
  rewrite Forall_forall in Hx. specialize (Hx y Hy).
  destruct (less x y) eqn:Hlt; [done|].
  assert (x = y) as -> by (by apply less_total). done.
Qed.

(** Sorting a slice without repetition: the same elements, strictly
    ascending. *)
Lemma sortLess_ascending (l : list T) : NoDup l -> ascending (sortLess l).
Proof.
  intros Hnd. apply sorted_NoDup_ascending; [|apply sortLess_sorted].
  by rewrite sortLess_Permutation.
Qed.

End Sorting.

Section Ranging.
Context `{Countable K}.

(** Two visiting orders of the same keys are permutations of each other. *)
Lemma rangeOrder_Permutation (keys : gset K) (ks1 ks2 : list K) :
  rangeOrder keys ks1 -> rangeOrder keys ks2 -> ks1 ≡ₚ ks2.
Proof.
  intros [Hnd1 Hk1] [Hnd2 Hk2]. apply NoDup_Permutation; [done..|].
  intros k. by rewrite Hk1, Hk2.
Qed.

Lemma rangeOrder_elements (keys : gset K) :
  rangeOrder keys (elements keys).
Proof.
  split; [apply NoDup_elements|]. intros k. apply elem_of_elements.
Qed.

Lemma rangeOrder_empty (ks : list K) :
  rangeOrder (∅ : gset K) ks -> ks = [].
Proof.
  intros [_ Hks]. destruct ks as [|k ks]; [done|].
  exfalso. apply (not_elem_of_empty (C:=gset K) k), Hks. by left.
Qed.

End Ranging.

(* ===================================================================== *)
(** * String builders                                                     *)
(* ===================================================================== *)

Section Builders.
Context {A : Type}.

(** A loop of [WriteString] calls writes the pieces one after the other. *)
Lemma fold_WriteString (piece : A -> string) (l : list A) (sb : string) :
  fold_left (fun sb x => sb +:+ piece x) l sb
  = sb +:+ concatAll (map piece l).
Proof.
  revert sb. induction l as [|x l IH]; intros sb; cbn.
  - by rewrite append_nil_r.
  - by rewrite IH, append_assoc.
Qed.

Lemma dropLast_append (s1 s2 : string) :
  s2 <> "" -> MetricsGo.dropLast (s1 +:+ s2) = s1 +:+ MetricsGo.dropLast s2.
Proof.
  intros Hs2. induction s1 as [|c s1 IH]; [done|].
  rewrite !append_cons. cbn. rewrite IH.
  destruct (s1 +:+ s2) eqn:Happ; [|done].
  destruct s1; [|done]. by destruct s2.
Qed.

Lemma concatAll_nonempty (piece : A -> string) (x : A) (l : list A) :
  (forall y, piece y <> "") -> concatAll (map piece (x :: l)) <> "".
Proof.
  intros Hp. cbn. specialize (Hp x). by destruct (piece x).
Qed.

(** Writing every piece followed by a separator byte and cutting the last
    byte is joining the pieces. *)
Lemma dropLast_separated (piece : A -> string) (sep : ascii) (l : list A) :
  MetricsGo.dropLast
    (concatAll (map (fun x => piece x +:+ String sep "") l))
  = joinWith (String sep "") (map piece l).
Proof.
  induction l as [|x l IH]; [done|].
  destruct l as [|y l].
  - cbn. rewrite append_nil_r.
    rewrite dropLast_append by done. cbn. by rewrite append_nil_r.
  - change (concatAll (map ?f (x :: ?t))) with (f x +:+ concatAll (map f t)).
    cbn beta. rewrite append_assoc.
    rewrite dropLast_append.
    2:{ intros Hc. by destruct (piece y). }
    rewrite dropLast_append.
    2:{ cbn. intros Hc. by destruct (piece y). }
    by rewrite IH.
Qed.

End Builders.

Lemma lastByte_None (s : string) : lastByte s = None -> s = "".
Proof.
  induction s as [|c s IH]; [done|].
  cbn. destruct s; [done|]. intros Hl. by specialize (IH Hl).
Qed.

Lemma lastByte_append (s1 s2 : string) :
  s2 <> "" -> lastByte (s1 +:+ s2) = lastByte s2.
Proof.
  intros Hs2. induction s1 as [|c s1 IH]; [done|].
  rewrite append_cons. cbn. rewrite IH.
  destruct (s1 +:+ s2) eqn:Happ; [|done].
  destruct s1; [|done]. by destruct s2.
Qed.

Lemma lastByte_allInClass (re : Regexp) (s : string) (c : ascii) :
  allInClass re s = true -> lastByte s = Some c -> class re c = true.
Proof.
  induction s as [|c' s IH]; [done|].
  cbn. intros [Hc' Hs]%andb_true_iff Hl.
  destruct s; [by simplify_eq|]. by apply IH.
Qed.

Lemma lastByte_joinWith (sep : string) (l : list string) (x : string) :
  (forall y, y ∈ x :: l -> y <> "") ->
  exists y, y ∈ x :: l /\ lastByte (joinWith sep (x :: l)) = lastByte y.
Proof.
  revert x. induction l as [|z l IH]; intros x Hne.
  - exists x. split; [by left|done].
  - destruct (IH z) as (y & Hy & Hl).
    { intros y Hy. apply Hne. by right. }
    exists y. split; [by right|].
    change (joinWith sep (x :: z :: l))
      with (x +:+ sep +:+ joinWith sep (z :: l)).
    rewrite <- Hl. rewrite <- append_assoc. apply lastByte_append.
    intros Hc. rewrite Hc in Hl.
    apply (Hne y); [by right|]. by apply lastByte_None.
Qed.

(* ===================================================================== *)
(** * Sanitizers and units                                                *)
(* ===================================================================== *)

(** C8. Sanitizing twice is sanitizing once: [sanitizeKey] and
    [sanitizeValue] are idempotent on every string, in [metrics.go] and in
    the generic revision alike. *)
Theorem sanitizers_idempotent (s : string) :
  MetricsGo.sanitizeKey (MetricsGo.sanitizeKey s) = MetricsGo.sanitizeKey s
  /\ MetricsGo.sanitizeValue (MetricsGo.sanitizeValue s)
     = MetricsGo.sanitizeValue s
  /\ Part000.sanitizeKey (Part000.sanitizeKey s) = Part000.sanitizeKey s
  /\ Part000.sanitizeValue (Part000.sanitizeValue s)
     = Part000.sanitizeValue s.
Proof.
  repeat split; apply ReplaceAllString_idempotent; reflexivity.
Qed.

Lemma CustomUnit_keepBytes (s : string) :
  MetricsGo.toString (MetricsGo.CustomUnit s)
  = keepBytes (byteRange "a" "z") s.
Proof. apply (replaceRuns_empty MetricsGo.unitRegex). Qed.

(** C9. A custom unit is the given string without the bytes outside
    [a-z], in their order and with nothing folded; [toString] and
    [GetUnit] return that string as it is; a string without any byte of
    [a-z] gives the empty unit, and the constructor has no way to fail. *)
Theorem CustomUnit_strips (s : string) :
  MetricsGo.toString (MetricsGo.CustomUnit s)
  = keepBytes (byteRange "a" "z") s
  /\ (forall am : MetricsGo.abstractMetric.t,
        MetricsGo.abstractMetric.unit am = MetricsGo.CustomUnit s ->
        MetricsGo.abstractMetric.GetUnit am
        = keepBytes (byteRange "a" "z") s)
  /\ (countBytes (byteRange "a" "z") s = 0%nat ->
      MetricsGo.toString (MetricsGo.CustomUnit s) = "").
Proof.
  split; [apply CustomUnit_keepBytes|]. split.
  - intros am Ham. unfold MetricsGo.abstractMetric.GetUnit.
    rewrite Ham. apply CustomUnit_keepBytes.
  - intros Hnone. rewrite CustomUnit_keepBytes.
    by apply (keepBytes_none MetricsGo.unitRegex).
Qed.

Lemma CustomUnit_strips_witness :
  MetricsGo.toString (MetricsGo.CustomUnit "KiB/s") = "is"
  /\ MetricsGo.abstractMetric.GetUnit
       {| MetricsGo.abstractMetric.key := "k";
          MetricsGo.abstractMetric.unit := MetricsGo.CustomUnit "KiB/s";
          MetricsGo.abstractMetric.tags := ∅;
          MetricsGo.abstractMetric.timestamp := 0 |} = "is"
  /\ MetricsGo.toString (MetricsGo.CustomUnit "MB 10") = "".
Proof.
  split; [exact (proj1 (CustomUnit_strips "KiB/s"))|]. split.
  - exact (proj1 (proj2 (CustomUnit_strips "KiB/s"))
             {| MetricsGo.abstractMetric.key := "k";
                MetricsGo.abstractMetric.unit := MetricsGo.CustomUnit "KiB/s";
                MetricsGo.abstractMetric.tags := ∅;
                MetricsGo.abstractMetric.timestamp := 0 |} eq_refl).
  - exact (proj2 (proj2 (CustomUnit_strips "MB 10")) eq_refl).
Defined.

Section ValueSanitizers.

Lemma allInClass_cons (re : Regexp) (c : ascii) (s : string) :
  allInClass re (String c s) = class re c && allInClass re s.
Proof. reflexivity. Qed.

Lemma value_classes (c : ascii) :
  class MetricsGo.valueRegex c = class valueRegex000 c || class_s c.
Proof.
  change (class MetricsGo.valueRegex c)
    with (class_w c || class_d c || class_s c || byteIn "_:/@.{}[]$-" c).
  change (class valueRegex000 c)
    with (class_w c || class_d c || byteIn "_:/@.{}[]$-" c).
  generalize (byteIn "_:/@.{}[]$-" c).
  destruct (class_w c), (class_d c), (class_s c); intros []; reflexivity.
Qed.

Lemma value_class000_weaker (s : string) :
  allInClass valueRegex000 s = true ->
  allInClass MetricsGo.valueRegex s = true.
Proof.
  induction s as [|c s IH]; [done|].
  rewrite !allInClass_cons, value_classes.
  intros [-> Hs]%andb_true_iff. by rewrite IH.
Qed.

Lemma value_class000_not_space (c : ascii) :
  class valueRegex000 c = true -> class_s c = false.
Proof.
  destruct c as [[] [] [] [] [] [] [] []]; vm_compute; congruence.
Qed.

Lemma countBytes_keepBytes (p q : ascii -> bool) (s : string) :
  (forall c, p c = true -> q c = true) ->
  countBytes p (keepBytes q s) = countBytes p s.
Proof.
  intros Hpq. induction s as [|c s IH]; [done|].
  cbn. destruct (q c) eqn:Hq; cbn; rewrite IH; [done|].
  destruct (p c) eqn:Hp; [|done]. rewrite (Hpq c Hp) in Hq. discriminate.
Qed.

Lemma countBytes_allInClass (re : Regexp) (p : ascii -> bool) (s : string) :
  (forall c, class re c = true -> p c = false) ->
  allInClass re s = true -> countBytes p s = 0%nat.
Proof.
  intros Hp. induction s as [|c s IH]; [done|].
  cbn. intros [Hc Hs]%andb_true_iff. by rewrite (Hp c Hc), IH.
Qed.

Lemma keepBytes_ext (p q : ascii -> bool) (s : string) :
  (forall c, p c = q c || class_s c) -> countBytes class_s s = 0%nat ->
  keepBytes p s = keepBytes q s.
Proof.
  intros Hpq. induction s as [|c s IH]; [done|].
  cbn. rewrite Hpq. destruct (class_s c); [done|].
  intros Hs. rewrite orb_false_r. rewrite (IH Hs). done.
Qed.

(** A replacement by one byte does not lose length against deletion, and
    gains when something is replaced. *)
Lemma length_replaceRuns_byte (re : Regexp) (r : ascii) (b : bool) (s : string) :
  (countBytes (class re) s <= String.length (replaceRuns re (String r "") b s))%nat
  /\ (b = false -> allInClass re s = false ->
      (countBytes (class re) s < String.length (replaceRuns re (String r "") b s))%nat).
Proof.
  revert b. induction s as [|c s IH]; intros b; [by split|].
  cbn. destruct (class re c) eqn:Hc; cbn.
  - destruct (IH false) as [Hle Hlt]. split; [lia|].
    intros _ Hbad. specialize (Hlt eq_refl Hbad). lia.
  - destruct (IH true) as [Hle _]. destruct b.
    + split; [lia|done].
    + rewrite append_cons, append_nil_l. cbn. split; lia.
Qed.

End ValueSanitizers.

Section Cuts.
Context (re : Regexp) (repl : string).

Lemma replaceRuns_kept (s rest : string) :
  countBytes (fun c => negb (class re c)) s = 0%nat ->
  replaceRuns re repl false (s +:+ rest) = s +:+ replaceRuns re repl false rest.
Proof.
  induction s as [|c s IH]; [done|].
  rewrite !append_cons. cbn [countBytes replaceRuns].
  destruct (class re c); cbn; [|done]. intros Hs. by rewrite IH.
Qed.

Lemma replaceRuns_kept_first (b : bool) (s rest : string) :
  s <> "" -> countBytes (fun c => negb (class re c)) s = 0%nat ->
  replaceRuns re repl b (s +:+ rest) = s +:+ replaceRuns re repl false rest.
Proof.
  destruct s as [|c s]; [done|]. intros _.
  rewrite !append_cons. cbn [countBytes replaceRuns].
  destruct (class re c); cbn; [|done]. intros Hs.
  by rewrite replaceRuns_kept.
Qed.

Lemma replaceRuns_run (s rest : string) :
  countBytes (class re) s = 0%nat ->
  replaceRuns re repl true (s +:+ rest) = replaceRuns re repl true rest.
Proof.
  induction s as [|c s IH]; [done|].
  rewrite !append_cons. cbn [countBytes replaceRuns].
  destruct (class re c); cbn; [done|]. exact IH.
Qed.

Lemma replaceRuns_run_first (s rest : string) :
  s <> "" -> countBytes (class re) s = 0%nat ->
  replaceRuns re repl false (s +:+ rest)
  = repl +:+ replaceRuns re repl true rest.
Proof.
  destruct s as [|c s]; [done|]. intros _.
  rewrite !append_cons. cbn [countBytes replaceRuns].
  destruct (class re c); cbn; [done|]. intros Hs.
  by rewrite replaceRuns_run.
Qed.

Lemma wellCut_Kept (s : string) :
  wellCut (class re) (Kept s) = true ->
  s <> "" /\ countBytes (fun c => negb (class re c)) s = 0%nat.
Proof.
  cbn. intros [Hne Hc]%andb_true_iff. split.
  - intros ->. done.
  - by apply Nat.eqb_eq.
Qed.

Lemma wellCut_Run (s : string) :
  wellCut (class re) (Run s) = true ->
  s <> "" /\ countBytes (class re) s = 0%nat.
Proof.
  cbn. intros [Hne Hc]%andb_true_iff. split.
  - intros ->. done.
  - by apply Nat.eqb_eq.
Qed.

Lemma cutAtRuns_cons (p : piece) (ps : list piece) :
  cutAtRuns (class re) (p :: ps) = true ->
  wellCut (class re) p = true /\ cutAtRuns (class re) ps = true
  /\ match ps with q :: _ => isRun q = negb (isRun p) | [] => True end.
Proof.
  unfold cutAtRuns. cbn [forallb].
  intros [[Hp Hps]%andb_true_iff Halt]%andb_true_iff.
  split; [done|]. destruct ps as [|q ps]; [done|].
  cbn [alternating] in Halt. apply andb_true_iff in Halt as [Hpq Halt].
  split; [by rewrite Hps|].
  by destruct (isRun p), (isRun q).
Qed.

(** Replacing the runs of a cut string: the pieces that are kept, and the
    replacement once for every run. *)
Lemma replaceRuns_cut (ps : list piece) :
  cutAtRuns (class re) ps = true ->
  replaceRuns re repl false (uncut ps) = withRuns repl ps
  /\ (match ps with Run _ :: _ => True
      | _ => replaceRuns re repl true (uncut ps) = withRuns repl ps end).
Proof.
  induction ps as [|p ps IH]; [done|].
  intros (Hp & Hps & Hnext)%cutAtRuns_cons.
  destruct (IH Hps) as [IH1 IH2].
  change (uncut (p :: ps)) with (bytesOf p +:+ uncut ps).
  change (withRuns repl (p :: ps))
    with (match p with Kept s => s | Run _ => repl end +:+ withRuns repl ps).
  destruct p as [s|s]; cbn [bytesOf].
  - apply wellCut_Kept in Hp as [Hne Hs].
    rewrite !replaceRuns_kept_first by done. by rewrite IH1.
  - apply wellCut_Run in Hp as [Hne Hs].
    split; [|done]. rewrite replaceRuns_run_first by done.
    destruct ps as [|[k|r] ps]; [by rewrite IH2|by rewrite IH2|done].
Qed.

Lemma cutAtRuns_intro (p : piece) (ps : list piece) :
  wellCut (class re) p = true -> cutAtRuns (class re) ps = true ->
  match ps with q :: _ => isRun q = negb (isRun p) | [] => True end ->
  cutAtRuns (class re) (p :: ps) = true.
Proof.
  unfold cutAtRuns. cbn [forallb].
  intros -> [-> Halt]%andb_true_iff Hnext.
  destruct ps as [|q ps]; [done|].
  change (alternating (p :: q :: ps))
    with (negb (Bool.eqb (isRun p) (isRun q)) && alternating (q :: ps)).
  rewrite Halt, Hnext. by destruct (isRun p).
Qed.

Lemma wellCut_push (c : ascii) (p : piece) :
  wellCut (class re) p = true -> isRun p = negb (class re c) ->
  wellCut (class re)
    (match p with Kept k => Kept (String c k) | Run r => Run (String c r) end)
  = true.
Proof.
  destruct p as [k|r]; cbn; intros [_ Hs]%andb_true_iff Hc.
  - destruct (class re c); [done|discriminate].
  - destruct (class re c); [discriminate|done].
Qed.

(** Every string has a cut. *)
Lemma cut_exists (s : string) :
  exists ps, cutAtRuns (class re) ps = true /\ uncut ps = s.
Proof.
  induction s as [|c s (ps & Hcut & <-)]; [by exists []|].
  assert (wellCut (class re)
            (if class re c then Kept (String c "") else Run (String c ""))
          = true) as Hone by (cbn; destruct (class re c) eqn:Hc; cbn; by rewrite Hc).
  destruct ps as [|p ps].
  { eexists [_]. split; [apply cutAtRuns_intro; [exact Hone|done|done]|].
    by destruct (class re c). }
  pose proof Hcut as (Hp & Hps & Hnext)%cutAtRuns_cons.
  destruct (Bool.eqb (isRun p) (negb (class re c))) eqn:Hkind.
  - apply Bool.eqb_prop in Hkind.
    exists (match p with
            | Kept k => Kept (String c k) | Run r => Run (String c r)
            end :: ps).
    split; [|by destruct p].
    apply cutAtRuns_intro; [by apply wellCut_push|done|].
    destruct ps as [|q ps]; [done|]. by destruct p.
  - apply Bool.eqb_false_iff in Hkind.
    eexists (_ :: p :: ps). split.
    + apply cutAtRuns_intro; [exact Hone|exact Hcut|].
      destruct (class re c), p; cbn in *; congruence.
    + by destruct (class re c).
Qed.

End Cuts.

(** The claim that the two revisions of [sanitizeValue] are the same
    function fails already on one space and on one exclamation mark. *)
Lemma sanitizeValue_revisions_differ :
  MetricsGo.sanitizeValue "a b" = "a b" /\ Part000.sanitizeValue "a b" = "a_b"
  /\ MetricsGo.sanitizeValue "a!b" = "ab" /\ Part000.sanitizeValue "a!b" = "a_b"
  /\ ~ (forall s, MetricsGo.sanitizeValue s = Part000.sanitizeValue s).
Proof.
  repeat split; try reflexivity.
  intros Heq. specialize (Heq "a b"). discriminate Heq.
Qed.

Section CutsOfValues.

Lemma countBytes_ext (p q : ascii -> bool) (s : string) :
  (forall c, p c = q c) -> countBytes p s = countBytes q s.
Proof.
  intros Hpq. induction s as [|c s IH]; [done|]. cbn. by rewrite Hpq, IH.
Qed.

Lemma cutAtRuns_ext (p q : ascii -> bool) (ps : list piece) :
  (forall c, p c = q c) -> cutAtRuns p ps = cutAtRuns q ps.
Proof.
  intros Hpq. unfold cutAtRuns. f_equal.
  induction ps as [|[k|r] ps IH]; [done| |]; cbn [forallb wellCut].
  - rewrite IH. do 3 f_equal. apply countBytes_ext.
    intros c. by rewrite Hpq.
  - rewrite IH. do 3 f_equal. by apply countBytes_ext.
Qed.

Lemma valueByteGo_class (c : ascii) :
  valueByteGo c = class MetricsGo.valueRegex c.
Proof. symmetry. apply value_classes. Qed.

Lemma countBytes_replaceRuns_kept (re : Regexp) (repl : string) (p : ascii -> bool)
    (b : bool) (s : string) :
  (forall c, p c = true -> class re c = true) -> countBytes p repl = 0%nat ->
  countBytes p (replaceRuns re repl b s) = countBytes p s.
Proof.
  intros Hp Hrepl. revert b.
  assert (forall s1 s2, countBytes p (s1 +:+ s2)
                        = (countBytes p s1 + countBytes p s2)%nat) as Happ.
  { intros s1 s2. induction s1 as [|c s1 IH]; [done|].
    rewrite append_cons. cbn. rewrite IH. lia. }
  induction s as [|c s IH]; intros b; [done|].
  cbn [replaceRuns countBytes].
  destruct (class re c) eqn:Hc.
  - cbn. by rewrite IH.
  - assert (p c = false) as ->.
    { destruct (p c) eqn:Hpc; [|done]. rewrite (Hp c Hpc) in Hc. done. }
    destruct b; [by rewrite IH|]. by rewrite Happ, Hrepl, IH.
Qed.

End CutsOfValues.

(** The two revisions of [sanitizeValue] agree on a string exactly when all
    its bytes are in the class of the generic revision, and then both
    return it unchanged. *)
Lemma sanitizeValue_agree_iff (s : string) :
  (MetricsGo.sanitizeValue s = Part000.sanitizeValue s
   <-> allInClass valueRegex000 s = true)
  /\ (allInClass valueRegex000 s = true ->
      MetricsGo.sanitizeValue s = s /\ Part000.sanitizeValue s = s).
Proof.
  assert (allInClass valueRegex000 s = true ->
          MetricsGo.sanitizeValue s = s /\ Part000.sanitizeValue s = s)
    as Hsame.
  { intros Hall. split.
    - by apply replaceRuns_fixed, value_class000_weaker.
    - by apply (replaceRuns_fixed valueRegex000). }
  split; [|exact Hsame]. split.
  - intros Heq. destruct (allInClass valueRegex000 s) eqn:Hall; [done|].
    exfalso.
    assert (allInClass valueRegex000 (Part000.sanitizeValue s) = true)
      as Hout by (by apply (replaceRuns_allInClass valueRegex000)).
    assert (MetricsGo.sanitizeValue s
            = keepBytes (class MetricsGo.valueRegex) s) as Hkeep
      by apply (replaceRuns_empty MetricsGo.valueRegex).
    destruct (countBytes class_s s) as [|n] eqn:Hspace.
    + pose proof (length_replaceRuns_byte valueRegex000 "_" false s)
        as [_ Hlt].
      specialize (Hlt eq_refl Hall).
      change (replaceRuns valueRegex000 "_" false s)
        with (Part000.sanitizeValue s) in Hlt.
      rewrite <- Heq, Hkeep in Hlt.
      rewrite (keepBytes_ext _ (class valueRegex000)) in Hlt
        by (done || apply value_classes).
      rewrite length_keepBytes in Hlt. lia.
    + pose proof (countBytes_allInClass valueRegex000 class_s _
                    value_class000_not_space Hout) as Hnone.
      rewrite <- Heq, Hkeep in Hnone.
      rewrite countBytes_keepBytes in Hnone; [congruence|].
      intros c Hc. rewrite value_classes, Hc. apply orb_true_r.
  - intros Hall. destruct (Hsame Hall) as [-> ->]. done.
Qed.

(** C6, as the code has it. The two revisions of [sanitizeValue] agree on
    a string exactly when all its bytes are in the class
    [[\w\d_:/@.{}\[\]$-]] of the generic revision, and then both return the
    string unchanged; on every other string they differ.  What each
    returns: [metrics.go] allows white space besides that class and
    deletes every other byte, so that the bytes it allows are left in
    their order and every white space is kept; the generic revision does
    not allow white space, and writes one underscore in the place of every
    maximal run of bytes outside its class: cut into the runs and the
    pieces between them, the string keeps the pieces and has one
    underscore for each run, and none of its bytes is white space.  Every
    string has such a cut, for either class. *)
Theorem sanitizeValue_revisions_compared (s : string) :
  (MetricsGo.sanitizeValue s = Part000.sanitizeValue s
   <-> allInClass valueRegex000 s = true)
  /\ (allInClass valueRegex000 s = true ->
      MetricsGo.sanitizeValue s = s /\ Part000.sanitizeValue s = s)
  /\ MetricsGo.sanitizeValue s = keepBytes valueByteGo s
  /\ countBytes class_s (MetricsGo.sanitizeValue s) = countBytes class_s s
  /\ (forall ps : list piece,
        cutAtRuns valueByteGo ps = true -> uncut ps = s ->
        MetricsGo.sanitizeValue s = withRuns "" ps)
  /\ (forall ps : list piece,
        cutAtRuns valueByte000 ps = true -> uncut ps = s ->
        Part000.sanitizeValue s = withRuns "_" ps)
  /\ countBytes class_s (Part000.sanitizeValue s) = 0%nat
  /\ (exists ps, cutAtRuns valueByteGo ps = true /\ uncut ps = s)
  /\ (exists ps, cutAtRuns valueByte000 ps = true /\ uncut ps = s).
Proof.
  destruct (sanitizeValue_agree_iff s) as [Hiff Hsame].
  assert (MetricsGo.sanitizeValue s = keepBytes valueByteGo s) as Hkeep.
  { unfold MetricsGo.sanitizeValue, ReplaceAllString.
    rewrite (replaceRuns_empty MetricsGo.valueRegex).
    clear. induction s as [|c s IH]; [done|].
    cbn [keepBytes]. by rewrite IH, valueByteGo_class. }
  split; [exact Hiff|]. split; [exact Hsame|]. split; [exact Hkeep|].
  split.
  { apply (countBytes_replaceRuns_kept MetricsGo.valueRegex); [|done].
    intros c Hc. rewrite value_classes, Hc. apply orb_true_r. }
  split.
  { intros ps Hcut <-.
    rewrite (cutAtRuns_ext _ (class MetricsGo.valueRegex)) in Hcut
      by apply valueByteGo_class.
    apply (replaceRuns_cut MetricsGo.valueRegex "" ps Hcut). }
  split.
  { intros ps Hcut <-.
    apply (replaceRuns_cut valueRegex000 "_" ps Hcut). }
  split.
  { apply (countBytes_allInClass valueRegex000);
      [apply value_class000_not_space|].
    by apply (replaceRuns_allInClass valueRegex000). }
  split.
  - destruct (cut_exists MetricsGo.valueRegex s) as (ps & Hcut & Hs).
    exists ps. split; [|done].
    by rewrite (cutAtRuns_ext _ (class MetricsGo.valueRegex))
      by apply valueByteGo_class.
  - apply (cut_exists valueRegex000 s).
Qed.

Lemma sanitizeValue_revisions_compared_witness :
  (MetricsGo.sanitizeValue "env:prod" = "env:prod"
   /\ Part000.sanitizeValue "env:prod" = "env:prod")
  /\ MetricsGo.sanitizeValue "a  b!?c d" = "a  bc d"
  /\ Part000.sanitizeValue "a  b!?c d" = "a_b_c_d".
Proof.
  split; [exact (proj1 (proj2 (sanitizeValue_revisions_compared "env:prod"))
                   eq_refl)|].
  pose proof (sanitizeValue_revisions_compared "a  b!?c d")
    as (_ & _ & _ & _ & Hgo & H000 & _).
  split.
  - exact (Hgo [Kept "a  b"; Run "!?"; Kept "c d"] eq_refl eq_refl).
  - exact (H000 [Kept "a"; Run "  "; Kept "b"; Run "!?"; Kept "c"; Run " ";
                 Kept "d"] eq_refl eq_refl).
Defined.

(* ===================================================================== *)
(** * Serialized tags                                                     *)
(* ===================================================================== *)

Section RangeOrders.
Context `{Countable K}.

Lemma rangeOrder_nil : rangeOrder (∅ : gset K) [].
Proof.
  split; [constructor|]. intros k. by rewrite elem_of_nil, elem_of_empty.
Qed.

Lemma rangeOrder_cons (keys : gset K) (k : K) (ks : list K) :
  k ∉ keys -> rangeOrder keys ks -> rangeOrder ({[k]} ∪ keys) (k :: ks).
Proof.
  intros Hk [Hnd Hks]. split.
  - constructor; [|done]. by rewrite Hks.
  - intros k'. by rewrite elem_of_cons, elem_of_union, elem_of_singleton, Hks.
Qed.

Lemma rangeOrder_permute (keys : gset K) (ks ks' : list K) :
  ks ≡ₚ ks' -> rangeOrder keys ks -> rangeOrder keys ks'.
Proof.
  intros Hp [Hnd Hks]. split; [by rewrite <- Hp|].
  intros k. by rewrite <- Hp.
Qed.

Lemma rangeOrder_singleton (k : K) : rangeOrder ({[k]} : gset K) [k].
Proof.
  split; [apply NoDup_singleton|].
  intros k'. by rewrite list_elem_of_singleton, elem_of_singleton.
Qed.

End RangeOrders.

(** The visiting order of a set that is written out key by key. *)
Ltac range_order :=
  repeat (apply rangeOrder_cons; [compute_done|]);
  first [apply rangeOrder_nil | apply rangeOrder_singleton].

Section Tags.
Implicit Types (tags : gmap string string) (range : ranger string).

(** The loop and the cut of the last comma, in closed form. *)
Lemma serializeTags_joinWith tags range :
  MetricsGo.serializeTags range tags
  = joinWith ","
      (map tagEntry (map (entryOf tags) (sortLess (range (dom tags))))).
Proof.
  unfold MetricsGo.serializeTags, MetricsGo.sortSlice.
  rewrite (fold_WriteString
             (fun key =>
                MetricsGo.sanitizeKey key +:+ ":"
                +:+ MetricsGo.sanitizeValue (MetricsGo.index tags key)
                +:+ ",")).
  rewrite append_nil_l, map_map.
  destruct (sortLess (range (dom tags))) as [|k ks] eqn:Hsorted; [done|].
  assert (forall s1 s2 : string, s1 +:+ ":" +:+ s2 +:+ ","
                                 = (s1 +:+ ":" +:+ s2) +:+ ",") as Hassoc.
  { intros s1 s2. by rewrite !append_assoc. }
  erewrite (map_ext _ (fun key => tagEntry (entryOf tags key) +:+ ","))
    by (intros key; apply Hassoc).
  rewrite <- (dropLast_separated (fun key => tagEntry (entryOf tags key))).
  destruct (concatAll _) eqn:Hc; [|done].
  exfalso. revert Hc. apply (concatAll_nonempty _ k ks).
  intros key Hkey. unfold tagEntry in Hkey.
  by destruct (MetricsGo.sanitizeKey (entryOf tags key).1).
Qed.

Lemma entries_Permutation tags (visit : list string) :
  rangeOrder (dom tags) visit ->
  map (entryOf tags) visit ≡ₚ map_to_list tags.
Proof.
  intros [Hnd Hdom]. apply NoDup_Permutation.
  - apply (NoDup_fmap_1 fst).
    change (NoDup (map fst (map (entryOf tags) visit))).
    rewrite map_map. cbn. by rewrite map_id.
  - apply NoDup_map_to_list.
  - intros [k v]. rewrite elem_of_map_to_list. split.
    + intros (k' & [= -> ->] & Hk)%list_elem_of_fmap.
      apply Hdom, elem_of_dom in Hk as [v Hv].
      unfold MetricsGo.index. by rewrite Hv.
    + intros Hkv. apply list_elem_of_fmap. exists k. split.
      * unfold entryOf, MetricsGo.index. by rewrite Hkv.
      * apply Hdom, elem_of_dom. by exists v.
Qed.

Lemma tagEntry_lastByte (kv : string * string) :
  tagEntry kv <> "" /\ lastByte (tagEntry kv) <> Some ","%char.
Proof.
  unfold tagEntry. split.
  { by destruct (MetricsGo.sanitizeKey kv.1). }
  destruct (MetricsGo.sanitizeValue kv.2) as [|c v] eqn:Hv.
  - rewrite lastByte_append by done. done.
  - rewrite <- append_assoc, lastByte_append by done.
    intros Hl.
    apply (lastByte_allInClass MetricsGo.valueRegex) in Hl; [done|].
    rewrite <- Hv. by apply replaceRuns_allInClass.
Qed.

(** The order of the loop does not show in the string. *)
Lemma serializeTags_order_irrelevant tags range range' :
  rangeOrder (dom tags) (range (dom tags)) ->
  rangeOrder (dom tags) (range' (dom tags)) ->
  MetricsGo.serializeTags range' tags = MetricsGo.serializeTags range tags.
Proof.
  intros Hv Hv'. rewrite !serializeTags_joinWith.
  by rewrite (sortLess_unique (range' (dom tags)) (range (dom tags)))
    by (by eapply rangeOrder_Permutation).
Qed.

End Tags.

(** The claim that the keys come out ascending by their sanitized form
    fails on the tags [a!:x] and [a-:y]: the raw keys are ascending, so
    [a!] is written first, as [a_], and [a_] is after [a-]; no ordering of
    the two entries that ascends by sanitized key gives the output. *)
Lemma serializeTags_not_sorted_by_sanitized_key :
  let tags : gmap string string := <["a!" := "x"]> (<["a-" := "y"]> ∅) in
  let range : ranger string := fun _ => ["a-"; "a!"] in
  rangeOrder (dom tags) (range (dom tags))
  /\ MetricsGo.serializeTags range tags = "a_:x,a-:y"
  /\ less (MetricsGo.sanitizeKey "a-") (MetricsGo.sanitizeKey "a!") = true
  /\ ~ (exists kvs : list (string * string),
          kvs ≡ₚ map_to_list tags
          /\ ascendingOn (fun kv => MetricsGo.sanitizeKey kv.1) kvs
          /\ MetricsGo.serializeTags range tags
             = joinWith "," (map tagEntry kvs)).
Proof.
  intros tags range.
  assert (map_to_list tags ≡ₚ [("a!", "x"); ("a-", "y")]) as Hlist.
  { unfold tags. rewrite map_to_list_insert by done.
    rewrite map_to_list_insert by done. by rewrite map_to_list_empty. }
  assert (MetricsGo.serializeTags range tags = "a_:x,a-:y") as Hout.
  { rewrite serializeTags_joinWith. reflexivity. }
  split; [|split; [exact Hout|split; [reflexivity|]]].
  - unfold tags, range. rewrite !dom_insert_L, dom_empty_L.
    apply (rangeOrder_permute _ ["a!"; "a-"]); [apply Permutation_swap|].
    range_order.
  - intros (kvs & Hperm & Hasc & Hkvs).
    rewrite Hout in Hkvs.
    rewrite Hlist in Hperm. symmetry in Hperm.
    apply Permutation_length_2_inv in Hperm as [-> | ->].
    + inversion Hasc as [|? ? _ Hhd]; subst.
      apply Forall_cons_1 in Hhd as [Hhd _]. discriminate Hhd.
    + discriminate Hkvs.
Qed.

(** C2, as the code has it. [serializeTags] writes one entry
    [sanitizeKey(key):sanitizeValue(value)] for each entry of the mapping,
    with commas between the entries and none at the end, in ascending
    order of the raw keys (the keys as given, before sanitizing); the
    string does not depend on the order in which the mapping is visited,
    so two mappings with the same contents give the same string, and the
    empty mapping gives the empty string. *)
Theorem serializeTags_sorted_by_raw_key
    (tags : gmap string string) (range : ranger string) :
  rangeOrder (dom tags) (range (dom tags)) ->
  (exists kvs : list (string * string),
      kvs ≡ₚ map_to_list tags
      /\ ascending (map fst kvs)
      /\ MetricsGo.serializeTags range tags = joinWith "," (map tagEntry kvs))
  /\ lastByte (MetricsGo.serializeTags range tags) <> Some ","%char
  /\ (forall (tags' : gmap string string) (range' : ranger string),
        (forall k, tags' !! k = tags !! k) ->
        rangeOrder (dom tags') (range' (dom tags')) ->
        MetricsGo.serializeTags range' tags'
        = MetricsGo.serializeTags range tags)
  /\ (tags = ∅ -> MetricsGo.serializeTags range tags = "").
Proof.
  intros Hv. split; [|split; [|split]].
  - exists (map (entryOf tags) (sortLess (range (dom tags)))).
    split; [|split].
    + rewrite <- (entries_Permutation tags _ Hv).
      apply Permutation_map, sortLess_Permutation.
    + rewrite map_map. cbn. rewrite map_id.
      apply sortLess_ascending, Hv.
    + apply serializeTags_joinWith.
  - rewrite serializeTags_joinWith.
    destruct (map tagEntry (map (entryOf tags) (sortLess (range (dom tags)))))
      as [|e es] eqn:Hes; [done|].
    destruct (lastByte_joinWith "," es e) as (y & Hy & ->).
    { intros y Hy. rewrite <- Hes in Hy.
      apply list_elem_of_fmap in Hy as (kv & -> & _).
      apply tagEntry_lastByte. }
    rewrite <- Hes in Hy. apply list_elem_of_fmap in Hy as (kv & -> & _).
    apply tagEntry_lastByte.
  - intros tags' range' Hsame Hv'.
    assert (tags' = tags) as -> by (by apply map_eq).
    by apply serializeTags_order_irrelevant.
  - intros ->. rewrite serializeTags_joinWith.
    rewrite dom_empty_L in *. by rewrite (rangeOrder_empty _ Hv).
Qed.

Lemma serializeTags_sorted_by_raw_key_witness :
  let tags : gmap string string :=
    <["release" := "1.0"]> (<["env" := "prod, eu"]> ∅) in
  let range : ranger string := fun _ => ["release"; "env"] in
  MetricsGo.serializeTags range tags = "env:prod eu,release:1.0"
  /\ MetricsGo.serializeTags elements tags
     = MetricsGo.serializeTags range tags.
Proof.
  intros tags range.
  assert (rangeOrder (dom tags) (range (dom tags))) as Hv.
  { unfold tags, range. rewrite !dom_insert_L, dom_empty_L. range_order. }
  split.
  - rewrite serializeTags_joinWith. reflexivity.
  - exact (proj1 (proj2 (proj2
             (serializeTags_sorted_by_raw_key tags range Hv)))
             tags elements (fun k => eq_refl)
             (rangeOrder_elements (dom tags))).
Defined.

(** In the generic revision the entries follow the order of the loop,
    which the language leaves open: the string is not determined by the
    contents of the mapping. *)
Lemma Part000_serializeTags_follows_range :
  let am :=
    {| Part000.abstractMetric.key := "k";
       Part000.abstractMetric.unit := Part000.Second;
       Part000.abstractMetric.tags := <["b" := "2"]> (<["a" := "1"]> ∅);
       Part000.abstractMetric.timestamp := 0 |} in
  Part000.abstractMetric.serializeTags (fun _ => ["a"; "b"]) am = "a:1,b:2"
  /\ Part000.abstractMetric.serializeTags (fun _ => ["b"; "a"]) am
     = "b:2,a:1".
Proof. split; reflexivity. Qed.

(* ===================================================================== *)
(** * The digits of [%v]                                                  *)
(* ===================================================================== *)

Section Shortest.
Local Open Scope Z_scope.

Lemma widthFrom_bound (fuel : nat) (w0 n : Z) :
  0 <= w0 -> n < 10 ^ (w0 + Z.of_nat fuel) ->
  w0 <= widthFrom fuel w0 n /\ n < 10 ^ widthFrom fuel w0 n.
Proof.
  revert w0. induction fuel as [|fuel IH]; intros w0 Hw0 Hn; cbn [widthFrom].
  - rewrite Z.add_0_r in Hn. lia.
  - destruct (n <? 10 ^ w0) eqn:Hlt; [lia|].
    destruct (IH (w0 + 1)) as [Hle Hb]; [lia| |lia].
    replace (w0 + 1 + Z.of_nat fuel) with (w0 + Z.of_nat (S fuel)) by lia.
    exact Hn.
Qed.

Lemma decimalWidth_bound (n : Z) :
  0 < n -> 0 <= decimalWidth n /\ n < 10 ^ decimalWidth n.
Proof.
  intros Hn. unfold decimalWidth.
  apply (widthFrom_bound _ 0 n); [lia|].
  pose proof (Z.log2_nonneg n) as Hl.
  pose proof (Z.log2_spec n Hn) as [_ Hup].
  assert (2 ^ Z.succ (Z.log2 n) <= 10 ^ Z.succ (Z.log2 n)) as Hp
    by (apply Z.pow_le_mono_l; lia).
  replace (0 + Z.of_nat (S (Z.to_nat (Z.log2 n)))) with (Z.succ (Z.log2 n))
    by lia.
  lia.
Qed.

Variables (lower value upper : Z) (inclusive : bool).
Hypothesis Hbounds : 0 < lower < value /\ value < upper.

Lemma multiple_below (u c : Z) : 0 < u -> c * u <= value -> c <= value / u.
Proof. intros Hu Hc. apply Z.div_le_lower_bound; lia. Qed.

Lemma multiple_above (u c : Z) :
  0 < u -> value < c * u -> value / u + 1 <= c.
Proof.
  intros Hu Hc. assert (value / u < c); [|lia].
  apply Z.div_lt_upper_bound; lia.
Qed.

(** A multiple of the unit that rounds back makes one of the two tests
    succeed. *)
Lemma test_down_complete (u c : Z) :
  0 < u -> c * u <= value -> roundsBack lower upper inclusive (c * u) ->
  (lower <? value / u * u) || (inclusive && (lower =? value / u * u)) = true.
Proof.
  intros Hu Hc Hback.
  pose proof (multiple_below u c Hu Hc) as Hle.
  assert (c * u <= value / u * u) as Hcu by nia.
  destruct Hback as [[Hl _] | [-> [Hx | Hx]]].
  - apply orb_true_iff. left. apply Z.ltb_lt. lia.
  - destruct (lower <? value / u * u) eqn:Hlt; [done|].
    apply Z.ltb_ge in Hlt. cbn. apply Z.eqb_eq. lia.
  - lia.
Qed.

Lemma test_up_complete (u c : Z) :
  0 < u -> value < c * u -> roundsBack lower upper inclusive (c * u) ->
  ((value / u + 1) * u <? upper)
  || (inclusive && ((value / u + 1) * u =? upper)) = true.
Proof.
  intros Hu Hc Hback.
  pose proof (multiple_above u c Hu Hc) as Hle.
  assert ((value / u + 1) * u <= c * u) as Hcu by nia.
  destruct Hback as [[_ Hl] | [-> [Hx | Hx]]].
  - apply orb_true_iff. left. apply Z.ltb_lt. lia.
  - lia.
  - destruct ((value / u + 1) * u <? upper) eqn:Hlt; [done|].
    apply Z.ltb_ge in Hlt. cbn. apply Z.eqb_eq. lia.
Qed.

(** A test that succeeds is right. *)
Lemma test_down_sound (u : Z) :
  0 < u ->
  (lower <? value / u * u) || (inclusive && (lower =? value / u * u)) = true ->
  roundsBack lower upper inclusive (value / u * u).
Proof.
  intros Hu Hok. pose proof (Z.mul_div_le value u Hu) as Hd.
  apply orb_true_iff in Hok
    as [Hlt%Z.ltb_lt | [-> Heq%Z.eqb_eq]%andb_true_iff].
  - left. lia.
  - right. split; [done|]. left. lia.
Qed.

Lemma test_up_sound (u : Z) :
  0 < u ->
  ((value / u + 1) * u <? upper)
  || (inclusive && ((value / u + 1) * u =? upper)) = true ->
  roundsBack lower upper inclusive ((value / u + 1) * u).
Proof.
  intros Hu Hok.
  pose proof (Z.mul_succ_div_gt value u Hu) as Hd.
  apply orb_true_iff in Hok
    as [Hlt%Z.ltb_lt | [-> Heq%Z.eqb_eq]%andb_true_iff].
  - left. lia.
  - right. split; [done|]. right. lia.
Qed.

(** No candidate: no multiple of the unit rounds back. *)
Lemma candidate_None (u : Z) :
  0 < u -> candidate u lower value upper inclusive = None ->
  forall c, ~ roundsBack lower upper inclusive (c * u).
Proof.
  intros Hu Hnone c Hb. unfold candidate in Hnone.
  destruct (Z_le_gt_dec (c * u) value) as [Hc | Hc].
  - rewrite (test_down_complete u c Hu Hc Hb) in Hnone.
    by repeat case_match.
  - rewrite (test_up_complete u c Hu ltac:(lia) Hb) in Hnone.
    by repeat case_match.
Qed.

(** The candidate rounds back, and no multiple of the unit that rounds
    back is nearer to the value. *)
Lemma candidate_Some (u c : Z) :
  0 < u -> candidate u lower value upper inclusive = Some c ->
  roundsBack lower upper inclusive (c * u)
  /\ forall c', roundsBack lower upper inclusive (c' * u) ->
       Z.abs (c * u - value) <= Z.abs (c' * u - value).
Proof.
  intros Hu Hsome. unfold candidate in Hsome.
  pose proof (Z.mul_div_le value u Hu) as Hd.
  pose proof (Z.mul_succ_div_gt value u Hu) as Hd'.
  pose proof (test_down_sound u Hu) as Hsd.
  pose proof (test_up_sound u Hu) as Hsu.
  pose proof (fun c' => test_down_complete u c' Hu) as Hcd.
  pose proof (fun c' => test_up_complete u c' Hu) as Hcu.
  destruct ((lower <? value / u * u)
            || (inclusive && (lower =? value / u * u))) eqn:Hdown;
  destruct (((value / u + 1) * u <? upper)
            || (inclusive && ((value / u + 1) * u =? upper))) eqn:Hup;
    [| | |done].
  - assert (forall c', Z.abs (value / u * u - value) <= Z.abs (c' * u - value)
                       \/ Z.abs ((value / u + 1) * u - value)
                          <= Z.abs (c' * u - value)) as Hnear.
    { intros c'. destruct (Z_le_gt_dec (c' * u) value) as [Hc | Hc].
      - left. pose proof (multiple_below u c' Hu Hc). nia.
      - right. pose proof (multiple_above u c' Hu ltac:(lia)). nia. }
    specialize (Hsd eq_refl). specialize (Hsu eq_refl).
    clear Hcd Hcu Hdown Hup.
    assert (exists dn, dn = value / u) as [dn Hdn] by eauto.
    rewrite <- Hdn in *. clear Hdn.
    destruct (2 * (value - dn * u) ?= u) eqn:Hcmp;
      [apply Z.compare_eq in Hcmp | rewrite Z.compare_lt_iff in Hcmp
      | rewrite Z.compare_gt_iff in Hcmp].
    + destruct (Z.even dn); injection Hsome as <-; (split; [done|]);
        intros c' _; destruct (Hnear c') as [Hn | Hn];
        clear -Hu Hcmp Hd Hd' Hn; lia.
    + injection Hsome as <-. split; [done|].
      intros c' _; destruct (Hnear c') as [Hn | Hn];
        clear -Hu Hcmp Hd Hd' Hn; lia.
    + injection Hsome as <-. split; [done|].
      intros c' _; destruct (Hnear c') as [Hn | Hn];
        clear -Hu Hcmp Hd Hd' Hn; lia.
  - injection Hsome as <-. split; [by auto|]. intros c' Hb.
    destruct (Z_le_gt_dec (c' * u) value) as [Hc | Hc].
    + pose proof (multiple_below u c' Hu Hc). nia.
    + specialize (Hcu c' ltac:(lia) Hb). congruence.
  - injection Hsome as <-. split; [by auto|]. intros c' Hb.
    destruct (Z_le_gt_dec (c' * u) value) as [Hc | Hc].
    + specialize (Hcd c' Hc Hb). congruence.
    + pose proof (multiple_above u c' Hu ltac:(lia)). nia.
Qed.

(** The walk stops at the coarsest unit that has a multiple rounding back,
    with the multiple nearest to the value among those that do. *)
Lemma roundShortest_correct (fuel : nat) (k : Z) :
  0 <= k -> (Z.to_nat k <= fuel)%nat ->
  forall c k', roundShortest fuel k lower value upper inclusive = (c, k') ->
  0 <= k' <= k
  /\ roundsBack lower upper inclusive (c * 10 ^ k')
  /\ (forall j c', k' < j <= k -> ~ roundsBack lower upper inclusive (c' * 10 ^ j))
  /\ (forall c', roundsBack lower upper inclusive (c' * 10 ^ k') ->
        Z.abs (c * 10 ^ k' - value) <= Z.abs (c' * 10 ^ k' - value)).
Proof.
  revert k. induction fuel as [|fuel IH]; intros k Hk Hfuel c k' Hrun.
  all: cbn [roundShortest] in Hrun.
  all: assert (0 < 10 ^ k) as Hu by (apply Z.pow_pos_nonneg; lia).
  all: destruct (candidate (10 ^ k) lower value upper inclusive)
         as [c0|] eqn:Hcand.
  1,3: simplify_eq; destruct (candidate_Some _ _ Hu Hcand) as [Hb Hnear];
    split; [lia|]; split; [done|]; split; [lia|done].
  - exfalso. assert (k = 0) as -> by lia.
    apply (candidate_None _ Hu Hcand value). left. lia.
  - assert (k <> 0) as Hk0.
    { intros ->. apply (candidate_None _ Hu Hcand value). left. lia. }
    destruct (IH (k - 1) ltac:(lia) ltac:(lia) c k' Hrun)
      as (Hk' & Hb & Hcoarse & Hnear).
    split; [lia|]. split; [done|]. split; [|done].
    intros j c' Hj Hbj. destruct (Z.eq_dec j k) as [-> | Hne].
    + by apply (candidate_None _ Hu Hcand c').
    + apply (Hcoarse j c'); [lia|done].
Qed.

End Shortest.

Section ShortestDecimal.
Local Open Scope Z_scope.

Lemma decimalWidth_pos (n : Z) : 0 < n -> 1 <= decimalWidth n.
Proof.
  intros Hn. destruct (decimalWidth_bound n Hn) as [Hw Hb].
  destruct (Z.eq_dec (decimalWidth n) 0) as [Hz|]; [|lia].
  rewrite Hz in Hb. change (10 ^ 0) with 1 in Hb. lia.
Qed.

(** The bounds enclose the value, which is the float scaled by [10^q]:
    [value / 10^q = m * 2^e]. *)
Lemma roundingInterval_bounds (m : positive) (e : Z) :
  forall lower value upper q,
  roundingInterval m e = (lower, value, upper, q) ->
  0 < lower < value /\ value < upper /\ 0 <= q
  /\ value * 2 ^ q = Zpos m * 2 ^ (e + q) * 10 ^ q.
Proof.
  intros lower value upper q. unfold roundingInterval. cbv zeta.
  set (lower4 := if (Zpos m =? _) && _ then _ else _).
  assert (4 * Zpos m - 2 <= lower4 < 4 * Zpos m) as Hl4
    by (unfold lower4; case_match; lia).
  destruct (2 <=? e) eqn:He; intros [= <- <- <- <-].
  - apply Z.leb_le in He.
    assert (0 < 2 ^ (e - 2)) as Hp by (apply Z.pow_pos_nonneg; lia).
    repeat split; try nia.
    rewrite Z.add_0_r. change (2 ^ 0) with 1. change (10 ^ 0) with 1.
    replace e with (2 + (e - 2)) at 2 by lia.
    rewrite Z.pow_add_r by lia. change (2 ^ 2) with 4. ring.
  - apply Z.leb_gt in He.
    assert (0 < 5 ^ (2 - e)) as Hp by (apply Z.pow_pos_nonneg; lia).
    repeat split; try nia.
    replace (e + (2 - e)) with 2 by lia. change (2 ^ 2) with 4.
    replace 10 with (5 * 2) by lia. rewrite Z.pow_mul_l. ring.
Qed.

(** The digits of [%v] are those of a decimal that rounds back to the
    float; no decimal with a coarser last digit rounds back; and among the
    decimals with a last digit of the same weight that round back, none is
    nearer to the float. *)
Lemma shortestDecimal_correct (m : positive) (e : Z) :
  forall lower value upper q c k,
  roundingInterval m e = (lower, value, upper, q) ->
  shortestDecimal m e = (c, k) ->
  0 <= k
  /\ roundsBack lower upper (Z.even (Zpos m)) (c * 10 ^ k)
  /\ (forall j c', k < j ->
        ~ roundsBack lower upper (Z.even (Zpos m)) (c' * 10 ^ j))
  /\ (forall c', roundsBack lower upper (Z.even (Zpos m)) (c' * 10 ^ k) ->
        Z.abs (c * 10 ^ k - value) <= Z.abs (c' * 10 ^ k - value)).
Proof.
  intros lower value upper q c k Hint Hrun.
  destruct (roundingInterval_bounds m e _ _ _ _ Hint) as (Hl & Hu & _).
  unfold shortestDecimal in Hrun. rewrite Hint in Hrun.
  pose proof (decimalWidth_bound upper ltac:(lia)) as [_ Hw].
  pose proof (decimalWidth_pos upper ltac:(lia)) as Hw1.
  destruct (roundShortest_correct lower value upper (Z.even (Zpos m))
              (conj Hl Hu) (Z.to_nat (decimalWidth upper))
              (decimalWidth upper - 1)
              ltac:(lia) ltac:(lia) c k Hrun)
    as (Hk & Hb & Hcoarse & Hnear).
  split; [lia|]. split; [done|]. split; [|done].
  intros j c' Hj Hbj.
  destruct (Z_le_gt_dec j (decimalWidth upper - 1)) as [Hle | Hgt].
  { apply (Hcoarse j c'); [lia|done]. }
  assert (10 ^ decimalWidth upper <= 10 ^ j) as Hpow
    by (apply Z.pow_le_mono_r; lia).
  assert (0 < 10 ^ j) as Hpj by (apply Z.pow_pos_nonneg; lia).
  assert (c' * 10 ^ j <= 0 \/ upper < c' * 10 ^ j) as Hout
    by (destruct (Z_le_gt_dec c' 0); [left; nia | right; nia]).
  destruct Hbj as [[Hx1 Hx2] | [_ [Hx | Hx]]]; lia.
Qed.

End ShortestDecimal.

(** ** Integers and checksums *)

(** [formatInt] writes the decimal notation: it reads back as the
    integer. *)
Lemma formatInt_reads_back (i : Z) :
  option_map Z.of_int (NilZero.int_of_string (formatInt i)) = Some i.
Proof.
  unfold formatInt. rewrite NilZero.isi.
  - cbn. by rewrite DecimalZ.of_to.
  - destruct i as [|p|p]; cbn; [done| |done].
    intros [= Hp]. by apply (DecimalPos.Unsigned.to_uint_nonnil p).
  - destruct i as [|p|p]; cbn; [done|done|].
    intros [= Hp]. by apply (DecimalPos.Unsigned.to_uint_nonnil p).
Qed.

(** The check value of CRC-32/ISO-HDLC. *)
Lemma ChecksumIEEE_check : ChecksumIEEE "123456789" = 0xcbf43926%Z.
Proof. vm_compute. reflexivity. Qed.

(** The checksum is a 32-bit value. *)
Lemma ChecksumIEEE_examples :
  ChecksumIEEE "" = 0%Z /\ ChecksumIEEE "a" = 3904355907%Z
  /\ ChecksumIEEE "b" = 1908338681%Z.
Proof. repeat split; vm_compute; reflexivity. Qed.

(** Renderings of [%v] that the Go documentation and playground show. *)
Lemma formatFloat_examples :
  formatFloat (f64 7 (-1)) = "3.5"
  /\ formatFloat (f64 (-3) (-1)) = "-1.5"
  /\ formatFloat (f64 15 0) = "15"
  /\ formatFloat (f64 1000000 0) = "1e+06"
  /\ formatFloat (f64 123456789 0) = "1.23456789e+08"
  /\ formatFloat (SFdiv prec emax (f64 1 0) (f64 10 0)) = "0.1"
  /\ formatFloat (SFdiv prec emax (f64 1 0) (f64 3 0)) = "0.3333333333333333"
  /\ formatFloat (f64add (SFdiv prec emax (f64 1 0) (f64 10 0))
                    (SFdiv prec emax (f64 2 0) (f64 10 0)))
     = "0.30000000000000004"
  /\ formatFloat (SFdiv prec emax (f64 1 0) (f64 100000 0)) = "1e-05"
  /\ formatFloat (S754_zero true) = "-0"
  /\ formatFloat (S754_infinity false) = "+Inf"
  /\ formatFloat S754_nan = "NaN".
Proof. repeat split; vm_compute; reflexivity. Qed.

(* ===================================================================== *)
(** * Reading [%v] back                                                   *)
(* ===================================================================== *)

Section Alphabet.
Local Open Scope Z_scope.

Lemma everyByte_cons (p : ascii -> bool) (c : ascii) (s : string) :
  everyByte p (String c s) = p c && everyByte p s.
Proof. reflexivity. Qed.

Lemma everyByte_append (p : ascii -> bool) (s1 s2 : string) :
  everyByte p (s1 +:+ s2) = everyByte p s1 && everyByte p s2.
Proof. apply allInClass_append. Qed.

Lemma everyByte_weaken (p q : ascii -> bool) (s : string) :
  (forall c, p c = true -> q c = true) ->
  everyByte p s = true -> everyByte q s = true.
Proof.
  intros Hpq. induction s as [|c s IH]; [done|].
  rewrite !everyByte_cons. intros [Hc Hs]%andb_true_iff.
  by rewrite (Hpq c Hc), IH.
Qed.

Lemma everyByte_rev_app (p : ascii -> bool) (s1 s2 : string) :
  everyByte p (String.rev_app s1 s2) = everyByte p s1 && everyByte p s2.
Proof.
  revert s2. induction s1 as [|c s1 IH]; intros s2; [done|].
  cbn [String.rev_app]. rewrite IH, !everyByte_cons.
  destruct (p c), (everyByte p s1), (everyByte p s2); reflexivity.
Qed.

Lemma everyByte_dropZeros (p : ascii -> bool) (s : string) :
  everyByte p s = true -> everyByte p (dropZeros s) = true.
Proof.
  induction s as [|c s IH]; [done|].
  rewrite everyByte_cons. intros [Hc Hs]%andb_true_iff.
  cbn [dropZeros].
  destruct c as [[] [] [] [] [] [] [] []];
    try (rewrite everyByte_cons, Hc, Hs; reflexivity).
  by apply IH.
Qed.

Lemma everyByte_trimZeros (p : ascii -> bool) (s : string) :
  everyByte p s = true -> everyByte p (trimZeros s) = true.
Proof.
  intros Hs. unfold trimZeros, String.rev.
  rewrite everyByte_rev_app, andb_true_r.
  apply everyByte_dropZeros. by rewrite everyByte_rev_app, Hs.
Qed.

Lemma everyByte_string_of_uint' (u : Decimal.uint) :
  everyByte class_d (NilEmpty.string_of_uint u) = true.
Proof.
  induction u; [done|..]; cbn [NilEmpty.string_of_uint];
    rewrite everyByte_cons, IHu; reflexivity.
Qed.

Lemma everyByte_string_of_uint (u : Decimal.uint) :
  everyByte class_d (NilZero.string_of_uint u) = true.
Proof. destruct u; [done|..]; apply everyByte_string_of_uint'. Qed.

Lemma everyByte_digitsOf (n : Z) : everyByte class_d (digitsOf n) = true.
Proof. apply everyByte_string_of_uint. Qed.

Lemma everyByte_formatInt (n : Z) :
  0 <= n -> everyByte class_d (formatInt n) = true.
Proof.
  intros Hn. unfold formatInt.
  destruct n as [|p|p]; [done| |lia]. apply everyByte_string_of_uint.
Qed.

Lemma everyByte_get (p : ascii -> bool) (s : string) (i : nat) (c : ascii) :
  everyByte p s = true -> String.get i s = Some c -> p c = true.
Proof.
  revert i. induction s as [|c' s IH]; intros i; [done|].
  rewrite everyByte_cons. intros [Hc Hs]%andb_true_iff.
  destruct i as [|i]; cbn; [by intros [= <-]|]. by apply IH.
Qed.

Lemma digitAt_digit (ds : decimalSlice) (i : Z) :
  everyByte class_d (d ds) = true -> class_d (digitAt ds i) = true.
Proof.
  intros Hd. unfold digitAt.
  destruct ((0 <=? i) && (i <? nd ds)); [|done].
  destruct (String.get (Z.to_nat i) (d ds)) as [c|] eqn:Hget; [|done].
  by apply (everyByte_get class_d (d ds) (Z.to_nat i)).
Qed.

Lemma everyByte_digitsFrom (ds : decimalSlice) (from : Z) (n : nat) :
  everyByte class_d (d ds) = true ->
  everyByte class_d (digitsFrom ds from n) = true.
Proof.
  intros Hd. revert from. induction n as [|n IH]; intros from; [done|].
  cbn [digitsFrom]. by rewrite everyByte_cons, digitAt_digit, IH.
Qed.

Lemma digit_floatByte (c : ascii) : class_d c = true -> floatByte c = true.
Proof. destruct c as [[] [] [] [] [] [] [] []]; vm_compute; congruence. Qed.

Lemma everyByte_fmtG (ds : decimalSlice) :
  everyByte class_d (d ds) = true -> everyByte floatByte (fmtG ds) = true.
Proof.
  intros Hd.
  pose proof (fun from n => everyByte_weaken _ _ _ digit_floatByte
                (everyByte_digitsFrom ds from n Hd)) as Hfrom.
  unfold fmtG. destruct ((_ <? -4) || _).
  - unfold fmtE. rewrite everyByte_cons.
    rewrite (digit_floatByte _ (digitAt_digit ds 0 Hd)).
    rewrite !everyByte_append.
    rewrite (everyByte_weaken _ _ _ digit_floatByte
               (everyByte_formatInt _ (Z.abs_nonneg _))).
    repeat case_match; rewrite ?everyByte_append, ?Hfrom; reflexivity.
  - unfold fmtF. rewrite !everyByte_append.
    repeat case_match; rewrite ?everyByte_append, ?Hfrom; reflexivity.
Qed.

(** The text of a [float64] is made of digits, signs, the point, [e] and
    the letters of [Inf] and [NaN]. *)
Lemma everyByte_formatFloat (x : float64) :
  everyByte floatByte (formatFloat x) = true.
Proof.
  destruct x as [s|s| |s m e]; cbn [formatFloat].
  - by destruct s.
  - by destruct s.
  - done.
  - rewrite everyByte_append, everyByte_fmtG; [by destruct s|].
    unfold shortest. repeat case_match. cbn [d].
    apply everyByte_trimZeros, everyByte_digitsOf.
Qed.

Lemma floatByte_countBytes (p : ascii -> bool) (s : string) :
  (forall c, floatByte c = true -> p c = false) ->
  everyByte floatByte s = true -> countBytes p s = 0%nat.
Proof. intros Hp. apply (countBytes_allInClass (NegatedClassPlus floatByte)), Hp. Qed.

End Alphabet.

Section Format.
Local Open Scope Z_scope.

Lemma digits2_pos_bounds (m : positive) :
  2 ^ (Zpos (digits2_pos m) - 1) <= Zpos m < 2 ^ Zpos (digits2_pos m).
Proof.
  induction m as [m IH|m IH|]; cbn [digits2_pos]; [| |done].
  all: rewrite Pos2Z.inj_succ.
  all: replace (Z.succ (Zpos (digits2_pos m)) - 1) with (Zpos (digits2_pos m))
         by lia.
  all: rewrite Z.pow_succ_r by lia.
  all: replace (2 ^ Zpos (digits2_pos m))
         with (2 * 2 ^ (Zpos (digits2_pos m) - 1)) in *
         by (rewrite <- Z.pow_succ_r by lia; f_equal; lia).
  all: lia.
Qed.

Lemma canonical_iff (m : positive) (e : Z) :
  canonical_mantissa prec emax m e = true
  <-> Zpos m < 2 ^ 53 /\ -1074 <= e /\ (-1074 < e -> 2 ^ 52 <= Zpos m).
Proof.
  unfold canonical_mantissa, fexp, emin, prec, emax.
  rewrite Z.eqb_eq.
  pose proof (digits2_pos_bounds m) as [Hlo Hhi].
  set (dg := Zpos (digits2_pos m)) in *.
  assert (1 <= dg) as Hdg by (unfold dg; lia).
  split.
  - intros Hmax.
    destruct (Z_le_gt_dec (-1074) (dg + e - 53)) as [Hnormal | Hsub].
    + assert (dg = 53) as Hd by lia. rewrite Hd in *.
      change (2 ^ (53 - 1)) with (2 ^ 52) in Hlo. lia.
    + assert (e = -1074) as -> by lia.
      assert (2 ^ dg <= 2 ^ 52) by (apply Z.pow_le_mono_r; lia).
      change (2 ^ 53) with (2 * 2 ^ 52). lia.
  - intros (Hm & He & Hnormal).
    assert (dg <= 53) as Hd.
    { destruct (Z_le_gt_dec dg 53) as [|Hgt]; [done|].
      assert (2 ^ 53 <= 2 ^ (dg - 1)) by (apply Z.pow_le_mono_r; lia). lia. }
    destruct (Z.eq_dec e (-1074)) as [-> | Hne]; [lia|].
    specialize (Hnormal ltac:(lia)).
    assert (52 < dg) as Hd'.
    { destruct (Z_lt_le_dec 52 dg) as [|Hle]; [done|].
      assert (2 ^ dg <= 2 ^ 52) by (apply Z.pow_le_mono_r; lia). lia. }
    lia.
Qed.

End Format.

Section Values.
Local Open Scope Q_scope.

Lemma two_pow_pos (e : Z) : 0 < 2 ^ e.
Proof. by apply Qpower_0_lt. Qed.

Lemma ten_pow_pos (e : Z) : 0 < 10 ^ e.
Proof. by apply Qpower_0_lt. Qed.

Lemma two_pow_succ (e : Z) : 2 ^ (e + 1) == 2 * 2 ^ e.
Proof. rewrite Qpower_plus by done. change (2 ^ 1) with 2. ring. Qed.

Lemma two_pow_add (e j : Z) :
  (0 <= j)%Z -> 2 ^ (e + j) == inject_Z (2 ^ j) * 2 ^ e.
Proof.
  intros Hj. rewrite Qpower_plus by done. rewrite Zpower_Qpower by done.
  change (inject_Z 2) with 2. ring.
Qed.

Lemma ten_pow_add (e j : Z) :
  (0 <= j)%Z -> 10 ^ (e + j) == inject_Z (10 ^ j) * 10 ^ e.
Proof.
  intros Hj. rewrite Qpower_plus by done. rewrite Zpower_Qpower by done.
  change (inject_Z 10) with 10. ring.
Qed.

(** The same number at a lower exponent. *)
Lemma valueOf_shift (m e j : Z) :
  (0 <= j)%Z -> valueOf m (e + j) == valueOf (m * 2 ^ j) e.
Proof.
  intros Hj. unfold valueOf. rewrite two_pow_add by done.
  rewrite inject_Z_mult. ring.
Qed.

Lemma valueOf_le (m m' e : Z) : (m <= m')%Z -> valueOf m e <= valueOf m' e.
Proof.
  intros Hm. unfold valueOf. apply Qmult_le_compat_r.
  - by rewrite <- Zle_Qle.
  - apply Qlt_le_weak, two_pow_pos.
Qed.

Lemma valueOf_eq (m m' e : Z) : valueOf m e == valueOf m' e -> m = m'.
Proof.
  unfold valueOf. intros Heq.
  apply Qmult_inj_r in Heq; [by apply inject_Z_injective|].
  pose proof (two_pow_pos e). lra.
Qed.

Lemma valueOf_plus (m m' e : Z) :
  valueOf (m + m') e == valueOf m e + valueOf m' e.
Proof. unfold valueOf. rewrite inject_Z_plus. ring. Qed.

Lemma valueOf_one (e : Z) : valueOf 1 e == 2 ^ e.
Proof. unfold valueOf. change (inject_Z 1) with 1. ring. Qed.

End Values.

Section Neighbours.
Local Open Scope Q_scope.

Variables (m : positive) (e : Z).
Hypothesis Hcanonical : canonical_mantissa prec emax m e = true.

Lemma valueOf_lt_inv (a b e0 : Z) : valueOf a e0 < valueOf b e0 -> (a < b)%Z.
Proof.
  intros Hlt. destruct (Z_lt_le_dec a b) as [|Hle]; [done|].
  pose proof (valueOf_le b a e0 Hle). lra.
Qed.

Lemma valueOf_zero (e0 : Z) : valueOf 0 e0 == 0.
Proof. unfold valueOf. change (inject_Z 0) with 0. ring. Qed.

Lemma valueOf_pos (p : positive) (e0 : Z) : 0 < valueOf (Zpos p) e0.
Proof.
  rewrite <- (valueOf_zero e0). unfold valueOf.
  apply Qmult_lt_compat_r; [apply two_pow_pos|].
  by rewrite <- Zlt_Qlt.
Qed.

(** No number of the format lies between [m * 2^e] and [(m + 1) * 2^e]. *)
Lemma format_above (m' e' : Z) :
  inFormat m' e' -> valueOf (Zpos m) e < valueOf m' e' ->
  valueOf (Zpos m + 1) e <= valueOf m' e'.
Proof.
  apply canonical_iff in Hcanonical as (Hm & He & Hnormal).
  intros [-> | (p & -> & Hp)] Hlt.
  { pose proof (valueOf_pos m e). rewrite valueOf_zero in Hlt. lra. }
  apply canonical_iff in Hp as (Hp & He' & Hnormal').
  destruct (Z_le_gt_dec e e') as [Hle | Hgt].
  - replace e' with (e + (e' - e))%Z in * by lia.
    rewrite valueOf_shift in * by lia.
    apply valueOf_lt_inv in Hlt. apply valueOf_le. lia.
  - exfalso. replace e with (e' + (e - e'))%Z in Hlt by lia.
    rewrite valueOf_shift in Hlt by lia.
    apply valueOf_lt_inv in Hlt.
    assert (2 ^ 1 <= 2 ^ (e - e'))%Z by (apply Z.pow_le_mono_r; lia).
    change (2 ^ 53)%Z with (2 ^ 52 * 2 ^ 1)%Z in Hp. nia.
Qed.

(** Below [m * 2^e] the next number of the format is [(m - 1) * 2^e]... *)
Lemma format_below_wide (m' e' : Z) :
  ~ (Zpos m = 2 ^ 52 /\ -1074 < e)%Z ->
  inFormat m' e' -> valueOf m' e' < valueOf (Zpos m) e ->
  valueOf m' e' <= valueOf (Zpos m - 1) e.
Proof.
  apply canonical_iff in Hcanonical as (Hm & He & Hnormal).
  intros Hwide [-> | (p & -> & Hp)] Hlt.
  { rewrite valueOf_zero. rewrite <- (valueOf_zero e). apply valueOf_le. lia. }
  apply canonical_iff in Hp as (Hp & He' & Hnormal').
  destruct (Z_le_gt_dec e e') as [Hle | Hgt].
  - replace e' with (e + (e' - e))%Z in * by lia.
    rewrite valueOf_shift in * by lia.
    apply valueOf_lt_inv in Hlt. apply valueOf_le. lia.
  - replace e with (e' + (e - e'))%Z by lia.
    rewrite valueOf_shift by lia. apply valueOf_le.
    assert (2 ^ 1 <= 2 ^ (e - e'))%Z by (apply Z.pow_le_mono_r; lia).
    change (2 ^ 53)%Z with (2 ^ 52 * 2 ^ 1)%Z in Hp.
    specialize (Hnormal ltac:(lia)). nia.
Qed.

(** ... unless [m] is the least mantissa of a binade above the smallest:
    then it is [(2 m - 1) * 2^(e - 1)]. *)
Lemma format_below_narrow (m' e' : Z) :
  (Zpos m = 2 ^ 52)%Z -> (-1074 < e)%Z ->
  inFormat m' e' -> valueOf m' e' < valueOf (Zpos m) e ->
  valueOf m' e' <= valueOf (2 * Zpos m - 1) (e - 1).
Proof.
  intros Hm He [-> | (p & -> & Hp)] Hlt.
  { rewrite valueOf_zero. rewrite <- (valueOf_zero (e - 1)).
    apply valueOf_le. lia. }
  apply canonical_iff in Hp as (Hp & He' & Hnormal').
  destruct (Z_le_gt_dec e e') as [Hle | Hgt].
  - exfalso. replace e' with (e + (e' - e))%Z in Hlt by lia.
    rewrite valueOf_shift in Hlt by lia.
    apply valueOf_lt_inv in Hlt.
    assert (0 < 2 ^ (e' - e))%Z by (apply Z.pow_pos_nonneg; lia).
    specialize (Hnormal' ltac:(lia)). nia.
  - replace (e - 1)%Z with (e' + (e - 1 - e'))%Z by lia.
    rewrite valueOf_shift by lia. apply valueOf_le.
    assert (0 < 2 ^ (e - 1 - e'))%Z by (apply Z.pow_pos_nonneg; lia).
    change (2 ^ 53)%Z with (2 * 2 ^ 52)%Z in Hp. nia.
Qed.

(** The neighbours are numbers of the format. *)
Lemma up_inFormat :
  exists m' e', inFormat m' e' /\ valueOf m' e' == valueOf (Zpos m + 1) e.
Proof.
  apply canonical_iff in Hcanonical as (Hm & He & Hnormal).
  destruct (Z.eq_dec (Zpos m + 1) (2 ^ 53))%Z as [Heq | Hne].
  - exists (2 ^ 52)%Z, (e + 1)%Z. split.
    + right. exists (2 ^ 52)%positive. split; [done|].
      apply canonical_iff. lia.
    + rewrite valueOf_shift by lia. rewrite Heq. reflexivity.
  - exists (Zpos m + 1)%Z, e. split; [|reflexivity].
    right. exists (m + 1)%positive. split; [lia|].
    apply canonical_iff. lia.
Qed.

Lemma down_wide_inFormat :
  ~ (Zpos m = 2 ^ 52 /\ -1074 < e)%Z -> inFormat (Zpos m - 1) e.
Proof.
  apply canonical_iff in Hcanonical as (Hm & He & Hnormal).
  intros Hwide. destruct (Z.eq_dec (Zpos m) 1%Z) as [Hone | Hne].
  - left. lia.
  - right. exists (Z.to_pos (Zpos m - 1)%Z). split; [lia|].
    apply canonical_iff. rewrite Z2Pos.id by lia. lia.
Qed.

Lemma down_narrow_inFormat :
  (Zpos m = 2 ^ 52)%Z -> (-1074 < e)%Z -> inFormat (2 * Zpos m - 1) (e - 1).
Proof.
  intros Hm He. right. exists (Z.to_pos (2 * Zpos m - 1)%Z).
  split; [lia|]. apply canonical_iff. rewrite Z2Pos.id by lia.
  change (2 ^ 53)%Z with (2 * 2 ^ 52)%Z. lia.
Qed.

End Neighbours.

Section Nearest.
Local Open Scope Q_scope.

Variables (m : positive) (e : Z).
Hypothesis Hcanonical : canonical_mantissa prec emax m e = true.

Lemma Qabs_cases (t : Q) :
  (0 <= t /\ Qabs t == t) \/ (t < 0 /\ Qabs t == - t).
Proof.
  destruct (Qlt_le_dec t 0) as [Hneg | Hpos].
  - right. split; [done|]. apply Qabs_neg. lra.
  - left. split; [done|]. by apply Qabs_pos.
Qed.

Lemma two_pow_quarter : 2 ^ e == 4 * 2 ^ (e - 2).
Proof.
  replace e with (e - 2 + 2)%Z at 1 by lia.
  rewrite two_pow_add by lia. reflexivity.
Qed.

Lemma two_pow_half : 2 ^ (e - 1) == 2 * 2 ^ (e - 2).
Proof.
  replace (e - 1)%Z with (e - 2 + 1)%Z at 1 by lia.
  rewrite two_pow_add by lia. reflexivity.
Qed.

Lemma valueOf_quarter (a b : Z) :
  valueOf (4 * a + b) (e - 2) == valueOf a e + inject_Z b * 2 ^ (e - 2).
Proof.
  unfold valueOf. rewrite two_pow_quarter.
  rewrite inject_Z_plus, inject_Z_mult. change (inject_Z 4) with 4.
  generalize (2 ^ (e - 2)), (inject_Z a), (inject_Z b). intros u x y. ring.
Qed.

Lemma valueOf_half (a b : Z) :
  valueOf (2 * a + b) (e - 1)
  == valueOf a e + inject_Z (2 * b) * 2 ^ (e - 2).
Proof.
  unfold valueOf. rewrite two_pow_quarter, two_pow_half.
  rewrite inject_Z_plus, !inject_Z_mult. change (inject_Z 2) with 2.
  generalize (2 ^ (e - 2)), (inject_Z a), (inject_Z b). intros u x y. ring.
Qed.

Lemma valueOf_whole (b : Z) :
  valueOf (Zpos m + b) e == valueOf (Zpos m) e + inject_Z (4 * b) * 2 ^ (e - 2).
Proof.
  unfold valueOf. rewrite two_pow_quarter.
  rewrite inject_Z_plus, !inject_Z_mult. change (inject_Z 4) with 4.
  generalize (2 ^ (e - 2)), (inject_Z (Zpos m)), (inject_Z b).
  intros u x y. ring.
Qed.

(** Rounding to nearest even is rounding inside the interval between the
    midpoints to the neighbours, the midpoints included for an even
    mantissa. *)
Lemma roundsTo_interval (q : Q) :
  let lower4 :=
    if (Zpos m =? 2 ^ 52)%Z && (-1074 <? e)%Z
    then (4 * Zpos m - 1)%Z else (4 * Zpos m - 2)%Z in
  roundsTo q m e
  <-> (valueOf lower4 (e - 2) < q < valueOf (4 * Zpos m + 2) (e - 2)
       \/ (Z.even (Zpos m) = true
           /\ (q == valueOf lower4 (e - 2)
               \/ q == valueOf (4 * Zpos m + 2) (e - 2)))).
Proof.
  intros lower4.
  pose proof (two_pow_pos (e - 2)) as Hu.
  pose proof (valueOf_quarter (Zpos m) 2) as Hhi.
  change (inject_Z 2) with 2 in Hhi.
  assert (valueOf lower4 (e - 2)
          == valueOf (Zpos m) e
             - (if (Zpos m =? 2 ^ 52)%Z && (-1074 <? e)%Z then 1 else 2)
               * 2 ^ (e - 2)) as Hlo.
  { unfold lower4.
    destruct ((Zpos m =? 2 ^ 52)%Z && (-1074 <? e)%Z).
    - replace (4 * Zpos m - 1)%Z with (4 * Zpos m + -1)%Z by lia.
      rewrite valueOf_quarter. change (inject_Z (-1)) with (-1). ring.
    - replace (4 * Zpos m - 2)%Z with (4 * Zpos m + -2)%Z by lia.
      rewrite valueOf_quarter. change (inject_Z (-2)) with (-2). ring. }
  set (x := valueOf (Zpos m) e) in *.
  set (u := 2 ^ (e - 2)) in *.
  set (lo := valueOf lower4 (e - 2)) in *.
  set (hi := valueOf (4 * Zpos m + 2) (e - 2)) in *.
  assert (forall m' e', inFormat m' e' -> x < valueOf m' e' ->
            x + 4 * u <= valueOf m' e') as Habove.
  { intros m' e' Hin Hlt.
    pose proof (format_above m e Hcanonical m' e' Hin Hlt) as Hnext.
    rewrite valueOf_whole in Hnext. change (inject_Z (4 * 1)) with 4 in Hnext.
    exact Hnext. }
  assert (forall m' e', inFormat m' e' -> valueOf m' e' < x ->
            valueOf m' e' <= 2 * lo - x) as Hbelow.
  { intros m' e' Hin Hlt.
    destruct ((Zpos m =? 2 ^ 52)%Z && (-1074 <? e)%Z) eqn:Hnarrow.
    - apply andb_true_iff in Hnarrow as [Hm%Z.eqb_eq He%Z.ltb_lt].
      pose proof (format_below_narrow m e m' e' Hm He Hin Hlt) as Hnext.
      replace (2 * Zpos m - 1)%Z with (2 * Zpos m + -1)%Z in Hnext by lia.
      rewrite valueOf_half in Hnext.
      change (inject_Z (2 * -1)) with (-2) in Hnext. fold x u in Hnext. lra.
    - assert (~ (Zpos m = 2 ^ 52 /\ -1074 < e)%Z) as Hwide.
      { intros [Hm%Z.eqb_eq He%Z.ltb_lt]. rewrite Hm, He in Hnarrow. done. }
      pose proof (format_below_wide m e Hcanonical m' e' Hwide Hin Hlt)
        as Hnext.
      replace (Zpos m - 1)%Z with (Zpos m + -1)%Z in Hnext by lia.
      rewrite valueOf_whole in Hnext.
      change (inject_Z (4 * -1)) with (-4) in Hnext. fold x u in Hnext. lra. }
  assert (exists m' e', inFormat m' e' /\ valueOf m' e' == x + 4 * u)
    as (mu & eu & Hinu & Hup).
  { destruct (up_inFormat m e Hcanonical) as (m' & e' & Hin & Hval).
    exists m', e'. split; [done|]. rewrite Hval, valueOf_whole.
    change (inject_Z (4 * 1)) with 4. reflexivity. }
  assert (exists m' e', inFormat m' e' /\ valueOf m' e' == 2 * lo - x)
    as (md & ed & Hind & Hdown).
  { destruct ((Zpos m =? 2 ^ 52)%Z && (-1074 <? e)%Z) eqn:Hnarrow.
    - apply andb_true_iff in Hnarrow as [Hm%Z.eqb_eq He%Z.ltb_lt].
      exists (2 * Zpos m - 1)%Z, (e - 1)%Z.
      split; [by apply down_narrow_inFormat|].
      replace (2 * Zpos m - 1)%Z with (2 * Zpos m + -1)%Z by lia.
      rewrite valueOf_half. change (inject_Z (2 * -1)) with (-2).
      fold x u. lra.
    - assert (~ (Zpos m = 2 ^ 52 /\ -1074 < e)%Z) as Hwide.
      { intros [Hm%Z.eqb_eq He%Z.ltb_lt]. rewrite Hm, He in Hnarrow. done. }
      exists (Zpos m - 1)%Z, e. split; [by apply down_wide_inFormat|].
      replace (Zpos m - 1)%Z with (Zpos m + -1)%Z by lia.
      rewrite valueOf_whole. change (inject_Z (4 * -1)) with (-4).
      fold x u. lra. }
  assert (lo < x) as Hlox
    by (destruct ((Zpos m =? 2 ^ 52)%Z && (-1074 <? e)%Z); lra).
  unfold roundsTo. fold x. clearbody x u lo hi. clear Hlo.
  split.
  - intros Hround.
    destruct (Hround mu eu Hinu ltac:(lra)) as [Hu1 | [Hu1 Heven1]];
    destruct (Hround md ed Hind ltac:(lra)) as [Hd1 | [Hd1 Heven2]];
    revert Hu1 Hd1; rewrite Hup, Hdown;
    destruct (Qabs_cases (q - x)) as [[? ->] | [? ->]];
    destruct (Qabs_cases (q - (x + 4 * u))) as [[? ->] | [? ->]];
    destruct (Qabs_cases (q - (2 * lo - x))) as [[? ->] | [? ->]];
    intros Hu1 Hd1;
    try (left; lra);
    try (right; split; [assumption|]; first [left; lra | right; lra]);
    try (exfalso; lra).
  - intros Hin m' e' Hfmt Hne.
    destruct (Q_dec (valueOf m' e') x) as [[Hlt | Hgt] | Heq]; [| |done].
    + pose proof (Hbelow m' e' Hfmt Hlt) as Hfar.
      destruct (Qlt_le_dec (Qabs (q - x)) (Qabs (q - valueOf m' e')))
        as [|Hge]; [by left|right].
      revert Hge.
      destruct (Qabs_cases (q - x)) as [[? ->] | [? ->]];
      destruct (Qabs_cases (q - valueOf m' e')) as [[? ->] | [? ->]];
      intros Hge;
      destruct Hin as [[? ?] | [Heven [Hq | Hq]]];
      try (exfalso; lra); (split; [lra|assumption]).
    + pose proof (Habove m' e' Hfmt Hgt) as Hfar.
      destruct (Qlt_le_dec (Qabs (q - x)) (Qabs (q - valueOf m' e')))
        as [|Hge]; [by left|right].
      revert Hge.
      destruct (Qabs_cases (q - x)) as [[? ->] | [? ->]];
      destruct (Qabs_cases (q - valueOf m' e')) as [[? ->] | [? ->]];
      intros Hge;
      destruct Hin as [[? ?] | [Heven [Hq | Hq]]];
      try (exfalso; lra); (split; [lra|assumption]).
Qed.

End Nearest.

Section Decimals.
Local Open Scope Q_scope.

Lemma decimalValue_scaled (c k j : Z) :
  (0 <= k)%Z -> decimalValue (c * 10 ^ k) j == decimalValue c (j + k).
Proof.
  intros Hk. unfold decimalValue. rewrite ten_pow_add by done.
  rewrite inject_Z_mult.
  generalize (10 ^ j), (inject_Z c), (inject_Z (10 ^ k)). intros u x y. ring.
Qed.

Lemma decimalValue_lt (a b k : Z) :
  decimalValue a k < decimalValue b k <-> (a < b)%Z.
Proof.
  unfold decimalValue. pose proof (ten_pow_pos k) as Hk. split.
  - intros Hlt. apply Qmult_lt_r in Hlt; [|done]. by rewrite Zlt_Qlt.
  - intros Hlt. apply Qmult_lt_r; [done|]. by rewrite <- Zlt_Qlt.
Qed.

Lemma decimalValue_eq (a b k : Z) :
  decimalValue a k == decimalValue b k <-> a = b.
Proof.
  unfold decimalValue. pose proof (ten_pow_pos k) as Hk. split.
  - intros Heq. apply Qmult_inj_r in Heq; [by apply inject_Z_injective|lra].
  - by intros ->.
Qed.

Lemma decimalValue_le (a b k : Z) :
  decimalValue a k <= decimalValue b k <-> (a <= b)%Z.
Proof.
  unfold decimalValue. pose proof (ten_pow_pos k) as Hk. split.
  - intros Hle. apply Qmult_le_r in Hle; [|done]. by rewrite Zle_Qle.
  - intros Hle. apply Qmult_le_r; [done|]. by rewrite <- Zle_Qle.
Qed.

Lemma five_ten_two (j : Z) :
  (0 <= j)%Z -> inject_Z (5 ^ j) * 10 ^ (- j) == 2 ^ (- j).
Proof.
  intros Hj. rewrite Zpower_Qpower by done. change (inject_Z 5) with 5.
  rewrite !Qpower_opp.
  assert (10 ^ j == 2 ^ j * 5 ^ j) as ->
    by (rewrite <- Qmult_power; reflexivity).
  pose proof (two_pow_pos j). assert (0 < 5 ^ j) by (by apply Qpower_0_lt).
  field. split; lra.
Qed.

End Decimals.

Section Interval.
Local Open Scope Q_scope.

Variables (m : positive) (e : Z).
Hypothesis Hcanonical : canonical_mantissa prec emax m e = true.
Variables (lower value upper q10 : Z).
Hypothesis Hint : roundingInterval m e = (lower, value, upper, q10).

(** The bounds of [roundingInterval] are the midpoints to the neighbours of
    the float, scaled by [10^q10]. *)
Lemma roundingInterval_values :
  let lower4 :=
    if (Zpos m =? 2 ^ 52)%Z && (-1074 <? e)%Z
    then (4 * Zpos m - 1)%Z else (4 * Zpos m - 2)%Z in
  (0 <= q10)%Z
  /\ decimalValue lower (- q10) == valueOf lower4 (e - 2)
  /\ decimalValue upper (- q10) == valueOf (4 * Zpos m + 2) (e - 2).
Proof.
  intros lower4.
  assert (exists S : Z,
            lower = (lower4 * S)%Z /\ upper = ((4 * Zpos m + 2) * S)%Z
            /\ (0 <= q10)%Z
            /\ forall a : Z,
                 decimalValue (a * S) (- q10) == valueOf a (e - 2))
    as (S & -> & -> & Hq & Hscale).
  { revert Hint. unfold roundingInterval. cbv zeta.
    change (2 ^ (prec - 1))%Z with (2 ^ 52)%Z.
    change (3 - emax - prec)%Z with (-1074)%Z. fold lower4.
    destruct (2 <=? e)%Z eqn:He; intros [= <- <- <- <-].
    - apply Z.leb_le in He. exists (2 ^ (e - 2))%Z.
      split; [done|]. split; [done|]. split; [done|].
      intros a. unfold decimalValue, valueOf. rewrite inject_Z_mult.
      rewrite Zpower_Qpower by lia. change (inject_Z 2) with 2.
      change (10 ^ (- 0)) with 1. ring.
    - apply Z.leb_gt in He. exists (5 ^ (2 - e))%Z.
      split; [done|]. split; [done|]. split; [lia|].
      intros a. unfold decimalValue, valueOf. rewrite inject_Z_mult.
      rewrite <- Qmult_assoc, five_ten_two by lia.
      replace (- (2 - e))%Z with (e - 2)%Z by lia. reflexivity. }
  split; [done|]. split; apply Hscale.
Qed.

(** A decimal on the scale of the bounds rounds to the float exactly when
    it rounds back between the bounds. *)
Lemma roundsTo_roundsBack (X : Z) :
  roundsTo (decimalValue X (- q10)) m e
  <-> roundsBack lower upper (Z.even (Zpos m)) X.
Proof.
  destruct roundingInterval_values as (Hq & Hlo & Hhi). cbv zeta in Hlo.
  rewrite (roundsTo_interval m e Hcanonical). cbv zeta.
  unfold roundsBack.
  split.
  - intros [[Hl Hu] | [Heven [Heq | Heq]]].
    + left. rewrite <- Hlo in Hl. rewrite <- Hhi in Hu.
      apply decimalValue_lt in Hl. apply decimalValue_lt in Hu. done.
    + right. split; [done|]. left. rewrite <- Hlo in Heq.
      by apply decimalValue_eq in Heq.
    + right. split; [done|]. right. rewrite <- Hhi in Heq.
      by apply decimalValue_eq in Heq.
  - intros [[Hl Hu] | [Heven [Heq | Heq]]].
    + left. rewrite <- Hlo, <- Hhi. split; by apply decimalValue_lt.
    + right. split; [done|]. left. rewrite <- Hlo. by apply decimalValue_eq.
    + right. split; [done|]. right. rewrite <- Hhi. by apply decimalValue_eq.
Qed.

End Interval.

Section Fewest.
Local Open Scope Q_scope.

Lemma roundsTo_wd (q q' : Q) (m : positive) (e : Z) :
  q == q' -> roundsTo q m e -> roundsTo q' m e.
Proof.
  intros Hq Hround m' e' Hin Hne.
  destruct (Hround m' e' Hin Hne) as [Hlt | [Heq Heven]].
  - left. by rewrite <- Hq.
  - right. split; [|done]. by rewrite <- Hq.
Qed.

Lemma widthFrom_least (fuel : nat) (w0 n : Z) :
  (w0 = 0 \/ 10 ^ (w0 - 1) <= n)%Z ->
  (widthFrom fuel w0 n = 0 \/ 10 ^ (widthFrom fuel w0 n - 1) <= n)%Z.
Proof.
  revert w0. induction fuel as [|fuel IH]; intros w0 Hw0; [done|].
  cbn [widthFrom]. destruct (n <? 10 ^ w0)%Z eqn:Hlt; [done|].
  apply Z.ltb_ge in Hlt. apply IH. right.
  by replace (w0 + 1 - 1)%Z with w0 by lia.
Qed.

Lemma decimalWidth_least (n : Z) :
  (0 < n)%Z -> (10 ^ (decimalWidth n - 1) <= n < 10 ^ decimalWidth n)%Z.
Proof.
  intros Hn. destruct (decimalWidth_bound n Hn) as [Hw Hlt].
  split; [|done].
  destruct (widthFrom_least (S (Z.to_nat (Z.log2 n))) 0 n ltac:(by left))
    as [Hz | Hle]; [|done].
  fold (decimalWidth n) in Hz. rewrite Hz in Hlt.
  change (10 ^ 0)%Z with 1%Z in Hlt. lia.
Qed.

Lemma ten_pow_le (a b : Z) : (a <= b)%Z -> 10 ^ a <= 10 ^ b.
Proof. intros Hab. apply Qpower_le_compat_l; [done|lra]. Qed.

Lemma decimalValue_one (k : Z) : decimalValue 1 k == 10 ^ k.
Proof. unfold decimalValue. change (inject_Z 1) with 1. ring. Qed.

Lemma decimalValue_pow (w k : Z) :
  (0 <= w)%Z -> decimalValue (10 ^ w) k == 10 ^ (k + w).
Proof.
  intros Hw. rewrite <- (Z.mul_1_l (10 ^ w)%Z).
  rewrite decimalValue_scaled by done. apply decimalValue_one.
Qed.

Variables (m : positive) (e : Z).
Hypothesis Hcanonical : canonical_mantissa prec emax m e = true.
Variables (lower value upper q10 c k : Z).
Hypothesis Hint : roundingInterval m e = (lower, value, upper, q10).
Hypothesis Hrun : shortestDecimal m e = (c, k).

(** The decimal of [shortestDecimal] rounds to the float, and no decimal
    of fewer digits does. *)
Lemma shortestDecimal_shortestFor :
  (0 < c)%Z /\ (0 <= k)%Z /\ shortestFor (decimalValue c (k - q10)) m e.
Proof.
  destruct (shortestDecimal_correct m e _ _ _ _ c k Hint Hrun)
    as (Hk & Hback & Hcoarse & _).
  destruct (roundingInterval_bounds m e _ _ _ _ Hint) as (Hl & Hu & Hq & _).
  pose proof (roundsTo_roundsBack m e Hcanonical _ _ _ _ Hint) as Hiff.
  assert (0 < 10 ^ k)%Z as Hpk by (apply Z.pow_pos_nonneg; lia).
  assert (0 < c)%Z as Hc.
  { destruct Hback as [[Hlo _] | [_ [Heq | Heq]]]; nia. }
  assert (forall X j : Z, (0 <= j)%Z ->
            decimalValue X (j - q10) == decimalValue (X * 10 ^ j) (- q10))
    as Hscaled.
  { intros X j Hj. rewrite decimalValue_scaled by done.
    by replace (- q10 + j)%Z with (j - q10)%Z by lia. }
  assert (roundsTo (decimalValue c (k - q10)) m e) as Hround.
  { apply (roundsTo_wd (decimalValue (c * 10 ^ k) (- q10)));
      [by rewrite Hscaled|]. by apply Hiff. }
  split; [done|]. split; [done|]. split; [done|].
  pose proof (decimalWidth_least c Hc) as [Hwlo Hwhi].
  exists (decimalWidth c), c, (k - q10)%Z.
  split; [lia|]. split; [reflexivity|].
  intros w' c' K' Hc' Hround'.
  destruct (Z_le_gt_dec (decimalWidth c) w') as [|Hshort]; [done|exfalso].
  destruct (Z_le_gt_dec (K' + q10) k) as [Hfine | Hcoarser].
  2:{ apply (Hcoarse (K' + q10)%Z c'); [lia|]. apply Hiff.
      apply (roundsTo_wd (decimalValue c' K')); [|done].
      rewrite <- Hscaled by lia. by replace (K' + q10 - q10)%Z with K' by lia. }
  destruct (Z_le_gt_dec w' 0) as [Hw' | Hw'].
  { assert (10 ^ w' <= 1)%Z as Hp.
    { destruct w' as [|p|p]; [done|lia|]. by cbn. }
    assert (c' = 0%Z) as -> by lia.
    assert (roundsBack lower upper (Z.even (Zpos m)) 0) as Hzero.
    { apply Hiff. apply (roundsTo_wd (decimalValue 0 K')); [|done].
      unfold decimalValue. change (inject_Z 0) with 0. ring. }
    destruct Hzero as [[? ?] | [_ [? | ?]]]; lia. }
  set (j := (decimalWidth c - 1 + k)%Z).
  apply (Hcoarse j 1%Z); [lia|]. apply Hiff.
  apply (roundsTo_wd (decimalValue 1 (j - q10))); [by apply Hscaled; lia|].
  apply (roundsTo_wd (10 ^ (j - q10)));
    [symmetry; apply decimalValue_one|].
  assert (decimalValue c' K' < 10 ^ (j - q10)) as Hbelow.
  { apply Qlt_le_trans with (decimalValue (10 ^ w') K').
    - apply decimalValue_lt. lia.
    - rewrite decimalValue_pow by lia. apply ten_pow_le. lia. }
  assert (10 ^ (j - q10) <= decimalValue c (k - q10)) as Habove.
  { apply Qle_trans with (decimalValue (10 ^ (decimalWidth c - 1)) (k - q10)).
    - rewrite decimalValue_pow by lia. apply ten_pow_le. lia.
    - apply decimalValue_le. lia. }
  apply (roundsTo_interval m e Hcanonical) in Hround, Hround'.
  apply (roundsTo_interval m e Hcanonical).
  cbv zeta in *.
  set (lo := valueOf _ (e - 2)) in *.
  set (hi := valueOf (4 * Zpos m + 2) (e - 2)) in *.
  assert (lo < hi) as Hlohi.
  { unfold lo, hi, valueOf. apply Qmult_lt_compat_r; [apply two_pow_pos|].
    rewrite <- Zlt_Qlt. case_match; lia. }
  destruct (Qlt_le_dec (10 ^ (j - q10)) hi) as [Hin | Hout].
  - left. split; [|done].
    destruct Hround' as [[? ?] | [_ [? | ?]]]; lra.
  - right. destruct Hround as [[? ?] | [Heven [? | ?]]]; [lra| |].
    + destruct Hround' as [[? ?] | [_ [? | ?]]]; lra.
    + split; [done|]. right. lra.
Qed.

End Fewest.

Section Digits.
Local Open Scope Z_scope.

Lemma readDigits_digits (s rest : string) (acc : Z) :
  everyByte class_d s = true -> stops rest = true ->
  readDigits acc (s +:+ rest) = (number acc s, String.length s, rest).
Proof.
  intros Hs Hrest. revert acc.
  induction s as [|c s IH]; intros acc.
  - rewrite append_nil_l. destruct rest as [|c r]; [done|].
    cbn in Hrest. cbn [readDigits]. unfold digitValue.
    by destruct (class_d c).
  - rewrite everyByte_cons in Hs. apply andb_true_iff in Hs as [Hc Hs].
    rewrite append_cons. cbn [readDigits number String.length].
    unfold digitValue. rewrite Hc. by rewrite (IH Hs).
Qed.

Lemma number_append (s1 s2 : string) (acc : Z) :
  number acc (s1 +:+ s2) = number (number acc s1) s2.
Proof.
  revert acc. induction s1 as [|c s1 IH]; intros acc; [done|].
  rewrite append_cons. cbn [number]. apply IH.
Qed.

Lemma number_zeros (n : nat) (acc : Z) :
  number acc (zeros n) = acc * 10 ^ Z.of_nat n.
Proof.
  revert acc. induction n as [|n IH]; intros acc.
  - cbn. lia.
  - cbn [zeros number]. rewrite IH. rewrite Nat2Z.inj_succ, Z.pow_succ_r by lia.
    change (Z.of_N (N_of_ascii "0") - 48) with 0. ring.
Qed.

Lemma everyByte_zeros (n : nat) : everyByte class_d (zeros n) = true.
Proof. induction n as [|n IH]; [done|]. cbn [zeros]. by rewrite everyByte_cons, IH. Qed.

Lemma length_zeros (n : nat) : String.length (zeros n) = n.
Proof. induction n as [|n IH]; [done|]. cbn. by rewrite IH. Qed.

Lemma zeros_snoc (n : nat) : zeros n +:+ "0" = zeros (S n).
Proof.
  induction n as [|n IH]; [done|].
  cbn [zeros]. rewrite append_cons, IH. done.
Qed.

Lemma number_of_uint_acc (u : Decimal.uint) (acc : positive) :
  number (Zpos acc) (NilEmpty.string_of_uint u) = Zpos (Pos.of_uint_acc u acc).
Proof.
  revert acc. induction u as [|u IH|u IH|u IH|u IH|u IH|u IH|u IH|u IH|u IH|u IH];
    intros acc; [done|..];
    cbn [NilEmpty.string_of_uint number Pos.of_uint_acc];
    rewrite <- IH; f_equal; cbn; lia.
Qed.

Lemma number_of_uint (u : Decimal.uint) :
  number 0 (NilEmpty.string_of_uint u) = Z.of_N (Pos.of_uint u).
Proof.
  induction u as [|u IH|u IH|u IH|u IH|u IH|u IH|u IH|u IH|u IH|u IH];
    [done|exact IH|..];
    cbn [NilEmpty.string_of_uint number Pos.of_uint Z.of_N];
    rewrite <- number_of_uint_acc; f_equal.
Qed.

Lemma number_digitsOf (n : Z) : 0 <= n -> number 0 (digitsOf n) = n.
Proof.
  intros Hn. unfold digitsOf.
  assert (number 0 (NilZero.string_of_uint (N.to_uint (Z.to_N n)))
          = Z.of_N (N.of_uint (N.to_uint (Z.to_N n)))) as ->.
  { destruct (N.to_uint (Z.to_N n)) eqn:Hu; try apply number_of_uint. done. }
  rewrite DecimalN.Unsigned.of_to. lia.
Qed.

Lemma formatInt_digitsOf (n : Z) : 0 <= n -> formatInt n = digitsOf n.
Proof. intros Hn. destruct n as [|p|p]; [done|done|lia]. Qed.

Lemma digitsOf_nonempty (n : Z) : digitsOf n <> "".
Proof.
  unfold digitsOf. destruct (N.to_uint (Z.to_N n)); done.
Qed.

End Digits.

Section Reversal.

Lemma rev_app_append (s1 s2 : string) :
  String.rev_app s1 s2 = String.rev s1 +:+ s2.
Proof.
  unfold String.rev. revert s2.
  induction s1 as [|c s1 IH]; intros s2; [done|].
  cbn [String.rev_app]. rewrite (IH (String c s2)), (IH (String c "")).
  by rewrite append_assoc, append_cons, append_nil_l.
Qed.

Lemma rev_cons (c : ascii) (s : string) :
  String.rev (String c s) = String.rev s +:+ String c "".
Proof. unfold String.rev at 1. cbn [String.rev_app]. apply rev_app_append. Qed.

Lemma rev_append (s1 s2 : string) :
  String.rev (s1 +:+ s2) = String.rev s2 +:+ String.rev s1.
Proof.
  induction s1 as [|c s1 IH].
  - by rewrite append_nil_l, append_nil_r.
  - rewrite append_cons, !rev_cons, IH. by rewrite append_assoc.
Qed.

Lemma rev_involutive (s : string) : String.rev (String.rev s) = s.
Proof.
  induction s as [|c s IH]; [done|].
  rewrite rev_cons, rev_append, IH. done.
Qed.

Lemma rev_zeros (n : nat) : String.rev (zeros n) = zeros n.
Proof.
  induction n as [|n IH]; [done|].
  cbn [zeros]. rewrite rev_cons, IH. apply zeros_snoc.
Qed.

Lemma dropZeros_split (s : string) :
  exists j : nat, s = zeros j +:+ dropZeros s.
Proof.
  induction s as [|c s [j IH]]; [by exists 0%nat|].
  destruct (Ascii.eqb c "0") eqn:Hc.
  - apply Ascii.eqb_eq in Hc as ->. exists (S j).
    cbn [dropZeros zeros]. rewrite append_cons. by f_equal.
  - exists 0%nat. rewrite append_nil_l.
    destruct c as [[] [] [] [] [] [] [] []]; try reflexivity. discriminate Hc.
Qed.

(** The digits are the trimmed digits and the zeros that were trimmed. *)
Lemma trimZeros_split (s : string) :
  exists j : nat, s = trimZeros s +:+ zeros j.
Proof.
  destruct (dropZeros_split (String.rev s)) as [j Hj].
  exists j. unfold trimZeros.
  rewrite <- (rev_involutive s) at 1. rewrite Hj at 1.
  by rewrite rev_append, rev_zeros.
Qed.

End Reversal.

Section Layout.
Local Open Scope Z_scope.

Variable ds : decimalSlice.

Lemma length_digitsFrom (from : Z) (n : nat) :
  String.length (digitsFrom ds from n) = n.
Proof.
  revert from. induction n as [|n IH]; intros from; [done|].
  cbn. by rewrite IH.
Qed.

Lemma digitsFrom_app (from : Z) (a b : nat) :
  digitsFrom ds from (a + b)
  = digitsFrom ds from a +:+ digitsFrom ds (from + Z.of_nat a) b.
Proof.
  revert from. induction a as [|a IH]; intros from.
  - cbn [digitsFrom Nat.add]. rewrite append_nil_l.
    by replace (from + Z.of_nat 0) with from by lia.
  - cbn [digitsFrom Nat.add]. rewrite append_cons, IH.
    by replace (from + Z.of_nat (S a)) with (from + 1 + Z.of_nat a) by lia.
Qed.

Lemma digitsFrom_after (from : Z) (n : nat) :
  nd ds <= from -> digitsFrom ds from n = zeros n.
Proof.
  revert from. induction n as [|n IH]; intros from Hfrom; [done|].
  cbn [digitsFrom zeros]. rewrite IH by lia. f_equal.
  unfold digitAt. destruct (0 <=? from) eqn:H0; [|done].
  destruct (from <? nd ds) eqn:H1; [|done]. apply Z.ltb_lt in H1. lia.
Qed.

Lemma digitsFrom_before (from : Z) (n : nat) :
  from + Z.of_nat n <= 0 -> digitsFrom ds from n = zeros n.
Proof.
  revert from. induction n as [|n IH]; intros from Hfrom; [done|].
  cbn [digitsFrom zeros]. rewrite IH by lia. f_equal.
  unfold digitAt. destruct (0 <=? from) eqn:H0; [|done].
  apply Z.leb_le in H0. lia.
Qed.

Lemma get_append_length (pre : string) (c : ascii) (s : string) :
  String.get (String.length pre) (pre +:+ String c s) = Some c.
Proof. induction pre as [|c' pre IH]; [done|]. rewrite append_cons. exact IH. Qed.

Lemma digitsFrom_suffix (pre suf : string) :
  d ds = pre +:+ suf ->
  digitsFrom ds (Z.of_nat (String.length pre)) (String.length suf) = suf.
Proof.
  revert pre. induction suf as [|c suf IH]; intros pre Hd; [done|].
  cbn [String.length digitsFrom]. f_equal.
  - unfold digitAt, nd. rewrite Hd, length_append. cbn [String.length].
    rewrite Nat2Z.id, get_append_length.
    destruct (0 <=? Z.of_nat (String.length pre)) eqn:H0;
      [|apply Z.leb_gt in H0; lia].
    destruct (Z.of_nat (String.length pre)
              <? Z.of_nat (String.length pre + S (String.length suf))) eqn:H1;
      [done|apply Z.ltb_ge in H1; lia].
  - specialize (IH (pre +:+ String c "")).
    rewrite length_append in IH. cbn [String.length] in IH.
    replace (Z.of_nat (String.length pre) + 1)
      with (Z.of_nat (String.length pre + 1)) by lia.
    apply IH. rewrite Hd, append_assoc, append_cons, append_nil_l. done.
Qed.

Lemma digitsFrom_all : digitsFrom ds 0 (String.length (d ds)) = d ds.
Proof. apply (digitsFrom_suffix ""). by rewrite append_nil_l. Qed.

End Layout.

Section Exponent.
Local Open Scope Z_scope.

Lemma stops_e (s : string) : stops (String "e" s) = true.
Proof. reflexivity. Qed.

Lemma stops_point (s : string) : stops (String "." s) = true.
Proof. reflexivity. Qed.

Lemma readDigits_all (s : string) (acc : Z) :
  everyByte class_d s = true ->
  readDigits acc s = (number acc s, String.length s, "").
Proof.
  intros Hs. rewrite <- (append_nil_r s) at 1. by apply readDigits_digits.
Qed.

(** The exponent that [%e] writes reads back. *)
Lemma readExponent_written (exp : Z) :
  readExponent
    ("e" +:+ (if exp <? 0 then "-" else "+")
     +:+ (if Z.abs exp <? 10 then "0" else "") +:+ formatInt (Z.abs exp))
  = Some exp.
Proof.
  pose proof (Z.abs_nonneg exp) as Habs.
  rewrite formatInt_digitsOf by done.
  set (digits := (if Z.abs exp <? 10 then "0" else "") +:+ digitsOf (Z.abs exp)).
  assert (everyByte class_d digits = true) as Hd.
  { unfold digits. rewrite everyByte_append, everyByte_digitsOf.
    by destruct (Z.abs exp <? 10). }
  assert (number 0 digits = Z.abs exp) as Hn.
  { unfold digits. rewrite number_append.
    destruct (Z.abs exp <? 10); by apply number_digitsOf. }
  assert (String.length digits <> 0%nat) as Hlen.
  { unfold digits. rewrite length_append.
    pose proof (digitsOf_nonempty (Z.abs exp)) as Hne.
    destruct (digitsOf (Z.abs exp)); [done|]. cbn. lia. }
  assert (forall sign : ascii,
            readExponent (String "e" (String sign digits))
            = if Ascii.eqb sign "+" then Some (Z.abs exp)
              else if Ascii.eqb sign "-" then Some (- Z.abs exp) else None)
    as Hread.
  { intros sign. cbn [readExponent]. rewrite readDigits_all, Hn by done.
    destruct (String.length digits); done. }
  destruct (exp <? 0) eqn:Hsign.
  - apply Z.ltb_lt in Hsign.
    change ("e" +:+ "-" +:+ digits) with (String "e" (String "-" digits)).
    rewrite Hread. cbn. f_equal. lia.
  - apply Z.ltb_ge in Hsign.
    change ("e" +:+ "+" +:+ digits) with (String "e" (String "+" digits)).
    rewrite Hread. cbn. f_equal. lia.
Qed.

End Exponent.

Section Unsigned.
Local Open Scope Z_scope.

Lemma nonempty_length (s : string) :
  s <> "" -> exists n, String.length s = S n.
Proof. destruct s as [|c s]; [done|]. intros _. by eexists. Qed.

(** Digits alone, or digits and an exponent. *)
Lemma readUnsigned_whole (whole rest : string) (e : Z) :
  everyByte class_d whole = true -> whole <> "" ->
  rest = "" \/ (exists r, rest = String "e" r) ->
  readExponent rest = Some e ->
  readUnsigned (whole +:+ rest) = Some (number 0 whole, e).
Proof.
  intros Hw Hne Hrest He. unfold readUnsigned.
  rewrite readDigits_digits; [|done|by destruct Hrest as [-> | [r ->]]].
  destruct (nonempty_length whole Hne) as [n ->].
  destruct Hrest as [-> | [r ->]]; by rewrite He.
Qed.

(** Digits, the point, digits, and perhaps an exponent. *)
Lemma readUnsigned_point (whole fraction rest : string) (e : Z) :
  everyByte class_d whole = true -> whole <> "" ->
  everyByte class_d fraction = true -> fraction <> "" ->
  rest = "" \/ (exists r, rest = String "e" r) ->
  readExponent rest = Some e ->
  readUnsigned (whole +:+ String "." (fraction +:+ rest))
  = Some (number 0 (whole +:+ fraction),
          e - Z.of_nat (String.length fraction)).
Proof.
  intros Hw Hne Hf Hnef Hrest He. unfold readUnsigned.
  rewrite readDigits_digits by done.
  destruct (nonempty_length whole Hne) as [n ->].
  rewrite readDigits_digits; [|done|by destruct Hrest as [-> | [r ->]]].
  destruct (nonempty_length fraction Hnef) as [n' ->].
  rewrite He. cbn [option_map]. by rewrite number_append.
Qed.

Variable ds : decimalSlice.
Hypothesis Hdigits : everyByte class_d (d ds) = true.
Hypothesis Hnonempty : d ds <> "".

Lemma nd_length : nd ds = Z.of_nat (String.length (d ds)).
Proof. reflexivity. Qed.

Lemma readUnsigned_fmtE :
  readUnsigned (fmtE ds (nd ds - 1))
  = Some (number 0 (d ds), dp ds - nd ds).
Proof.
  unfold fmtE. rewrite nd_length.
  destruct (nonempty_length (d ds) Hnonempty) as [n Hn]. rewrite Hn.
  replace (Z.of_nat (S n) =? 0) with false by (symmetry; apply Z.eqb_neq; lia).
  replace (Z.of_nat (S n) - 1) with (Z.of_nat n) by lia. rewrite Nat2Z.id.
  set (exp := dp ds - 1).
  pose proof (readExponent_written exp) as Hexp.
  set (E := "e" +:+ _) in *.
  assert (exists r, E = String "e" r) as HE by (by eexists).
  pose proof (digitsFrom_all ds) as Hall. rewrite Hn in Hall.
  cbn [digitsFrom] in Hall. change (0 + 1) with 1 in Hall.
  set (d0 := digitAt ds 0) in *. set (F := digitsFrom ds 1 n) in *.
  assert (class_d d0 = true /\ everyByte class_d F = true) as [Hd0 HF].
  { rewrite <- Hall, everyByte_cons in Hdigits.
    by apply andb_true_iff in Hdigits. }
  assert (String.length F = n) as HlenF by apply length_digitsFrom.
  clearbody E d0 F. rewrite <- Hall.
  destruct n as [|n].
  - destruct F; [|done]. change (0 <? Z.of_nat 0) with false. cbv iota.
    change (String d0 ("" +:+ E)) with (String d0 "" +:+ E).
    rewrite (readUnsigned_whole _ _ exp);
      [|by rewrite everyByte_cons, Hd0|done|by right|done].
    by replace (dp ds - Z.of_nat 1) with exp by (unfold exp; lia).
  - change (0 <? Z.of_nat (S n)) with true. cbv iota.
    change (String d0 (("." +:+ F) +:+ E))
      with (String d0 "" +:+ String "." (F +:+ E)).
    rewrite (readUnsigned_point _ _ _ exp);
      [|by rewrite everyByte_cons, Hd0|done|done|by destruct F|by right|done].
    rewrite HlenF.
    by replace (dp ds - Z.of_nat (S (S n))) with (exp - Z.of_nat (S n))
      by (unfold exp; lia).
Qed.

Lemma readUnsigned_fmtF :
  -3 <= dp ds ->
  exists n k : Z,
    readUnsigned (fmtF ds (Z.max (nd ds - dp ds) 0)) = Some (n, k)
    /\ ((n = number 0 (d ds) /\ k = dp ds - nd ds)
        \/ (nd ds <= dp ds /\ n = number 0 (d ds) * 10 ^ (dp ds - nd ds)
            /\ k = 0)).
Proof.
  intros _. unfold fmtF. rewrite nd_length.
  destruct (nonempty_length (d ds) Hnonempty) as [n Hn].
  pose proof (digitsFrom_all ds) as Hall.
  set (len := String.length (d ds)) in *.
  destruct (0 <? dp ds) eqn:Hdp; [apply Z.ltb_lt in Hdp|apply Z.ltb_ge in Hdp].
  - destruct (Z_lt_le_dec (dp ds) (Z.of_nat len)) as [Hin | Hout].
    + (* the point is inside the digits *)
      rewrite Z.max_l by lia.
      replace (0 <? Z.of_nat len - dp ds) with true
        by (symmetry; apply Z.ltb_lt; lia).
      assert (len = (Z.to_nat (dp ds) + Z.to_nat (Z.of_nat len - dp ds))%nat)
        as Hsplit by lia.
      rewrite Hsplit, digitsFrom_app in Hall.
      replace (0 + Z.of_nat (Z.to_nat (dp ds))) with (dp ds) in Hall by lia.
      set (I := digitsFrom ds 0 (Z.to_nat (dp ds))) in *.
      set (F := digitsFrom ds (dp ds) (Z.to_nat (Z.of_nat len - dp ds))) in *.
      assert (String.length I = Z.to_nat (dp ds)) as HlenI
        by apply length_digitsFrom.
      assert (String.length F = Z.to_nat (Z.of_nat len - dp ds)) as HlenF
        by apply length_digitsFrom.
      assert (everyByte class_d I = true /\ everyByte class_d F = true)
        as [HI HF].
      { rewrite <- Hall, everyByte_append in Hdigits.
        by apply andb_true_iff in Hdigits. }
      clearbody I F. exists (number 0 (d ds)), (dp ds - Z.of_nat len).
      split; [|by left].
      change ("." +:+ F) with (String "." F).
      rewrite <- (append_nil_r F) at 1.
      rewrite (readUnsigned_point _ _ _ 0);
        [|done|destruct I; [cbn in HlenI; lia|done]|done
         |destruct F; [cbn in HlenF; lia|done]|by left|done].
      rewrite Hall, HlenF. do 2 f_equal. lia.
    + (* the digits, then zeros *)
      rewrite Z.max_r by lia. cbn [Z.ltb Z.compare]. rewrite append_nil_r.
      assert (Z.to_nat (dp ds) = (len + Z.to_nat (dp ds - Z.of_nat len))%nat)
        as Hsplit by lia.
      rewrite Hsplit, digitsFrom_app, Hall.
      rewrite digitsFrom_after by (rewrite nd_length; fold len; lia).
      eexists _, 0. split.
      * rewrite <- (append_nil_r (_ +:+ _)).
        apply readUnsigned_whole; [|by destruct (d ds)|by left|done].
        by rewrite everyByte_append, Hdigits, everyByte_zeros.
      * right. split; [lia|]. split; [|done].
        rewrite number_append, number_zeros. f_equal. f_equal. lia.
  - (* a zero, the point, zeros and the digits *)
    rewrite Z.max_l by lia.
    replace (0 <? Z.of_nat len - dp ds) with true
      by (symmetry; apply Z.ltb_lt; lia).
    assert (Z.to_nat (Z.of_nat len - dp ds) = (Z.to_nat (- dp ds) + len)%nat)
      as Hsplit by lia.
    rewrite Hsplit, digitsFrom_app.
    replace (dp ds + Z.of_nat (Z.to_nat (- dp ds))) with 0 by lia.
    rewrite Hall, digitsFrom_before by lia.
    exists (number 0 (d ds)), (dp ds - Z.of_nat len). split; [|by left].
    change ("." +:+ ?x) with (String "." x).
    rewrite <- (append_nil_r (zeros _ +:+ _)).
    rewrite (readUnsigned_point "0" _ _ 0);
      [|done|done|by rewrite everyByte_append, Hdigits, everyByte_zeros
       |destruct (d ds); [done|]; by destruct (zeros _)|by left|done].
    rewrite length_append, length_zeros. fold len.
    change ("0" +:+ ?x) with (String "0" x). cbn [number].
    change (10 * 0 + (Z.of_N (N_of_ascii "0") - 48)) with 0.
    rewrite number_append, number_zeros. do 2 f_equal; lia.
Qed.

(** What [%g] writes reads back as the number of the digits, at the place
    that [dp] gives to the point. *)
Lemma readUnsigned_fmtG :
  exists n k : Z,
    readUnsigned (fmtG ds) = Some (n, k)
    /\ ((n = number 0 (d ds) /\ k = dp ds - nd ds)
        \/ (nd ds <= dp ds /\ n = number 0 (d ds) * 10 ^ (dp ds - nd ds)
            /\ k = 0)).
Proof.
  unfold fmtG. cbv zeta.
  destruct ((dp ds - 1 <? -4) || (eprec <=? dp ds - 1)) eqn:Hexp.
  - exists (number 0 (d ds)), (dp ds - nd ds).
    split; [apply readUnsigned_fmtE|by left].
  - apply orb_false_iff in Hexp as [Hlo%Z.ltb_ge _].
    apply readUnsigned_fmtF. lia.
Qed.

End Unsigned.

Section ReadBack.
Local Open Scope Z_scope.

Lemma shortestFor_wd (q q' : Q) (m : positive) (e : Z) :
  (q == q')%Q -> shortestFor q m e -> shortestFor q' m e.
Proof.
  intros Hq (Hround & w & c & K & Hc & Hval & Hleast).
  split; [by apply (roundsTo_wd q)|].
  exists w, c, K. split; [done|]. split; [|done]. by rewrite <- Hq.
Qed.

Lemma readUnsigned_digit (s : string) (nk : Z * Z) :
  readUnsigned s = Some nk ->
  exists c r, s = String c r /\ class_d c = true.
Proof.
  destruct s as [|c r]; [done|]. intros Hread. exists c, r. split; [done|].
  revert Hread. unfold readUnsigned. cbn [readDigits]. unfold digitValue.
  by destruct (class_d c).
Qed.

Lemma readFloat_unsigned (c : ascii) (r : string) :
  class_d c = true ->
  readFloat (String c r)
  = option_map (fun nk => Decimal false nk.1 nk.2) (readUnsigned (String c r)).
Proof.
  destruct c as [[] [] [] [] [] [] [] []]; intros Hc; vm_compute in Hc;
    try discriminate Hc; reflexivity.
Qed.

Lemma readFloat_negative (c : ascii) (r : string) :
  class_d c = true ->
  readFloat (String "-" (String c r))
  = option_map (fun nk => Decimal true nk.1 nk.2) (readUnsigned (String c r)).
Proof.
  destruct c as [[] [] [] [] [] [] [] []]; intros Hc; vm_compute in Hc;
    try discriminate Hc; reflexivity.
Qed.

Lemma readFloat_signed (s : bool) (text : string) (nk : Z * Z) :
  readUnsigned text = Some nk ->
  readFloat ((if s then "-" else "") +:+ text) = Some (Decimal s nk.1 nk.2).
Proof.
  intros Hread.
  destruct (readUnsigned_digit text nk Hread) as (c & r & -> & Hc).
  destruct s.
  - change ("-" +:+ String c r) with (String "-" (String c r)).
    by rewrite readFloat_negative, Hread.
  - rewrite append_nil_l. by rewrite readFloat_unsigned, Hread.
Qed.

(** The text of a finite [float64] other than zero reads back as a
    shortest decimal that rounds to it. *)
Lemma readFloat_finite (s : bool) (m : positive) (e : Z) :
  canonical_mantissa prec emax m e = true ->
  exists n k : Z,
    readFloat (formatFloat (S754_finite s m e)) = Some (Decimal s n k)
    /\ shortestFor (decimalValue n k) m e.
Proof.
  intros Hcanonical. cbn [formatFloat]. unfold shortest.
  destruct (roundingInterval m e) as [[[lower value] upper] q10] eqn:Hint.
  destruct (shortestDecimal m e) as [c k] eqn:Hrun.
  destruct (shortestDecimal_shortestFor m e Hcanonical _ _ _ _ c k Hint Hrun)
    as (Hc & Hk & Hshortest).
  destruct (roundingInterval_bounds m e _ _ _ _ Hint) as (_ & _ & Hq & _).
  destruct (trimZeros_split (digitsOf c)) as [j Hsplit].
  pose proof (number_digitsOf c ltac:(lia)) as Hnumber.
  pose proof (everyByte_trimZeros class_d _ (everyByte_digitsOf c)) as Hdigits.
  set (D := digitsOf c) in *. set (T := trimZeros D) in *.
  assert (c = number 0 T * 10 ^ Z.of_nat j) as HcT
    by (by rewrite <- Hnumber, Hsplit, number_append, number_zeros).
  assert (T <> "") as Hne by (intros HT; rewrite HT in HcT; cbn in HcT; lia).
  assert (Z.of_nat (String.length D)
          = Z.of_nat (String.length T) + Z.of_nat j) as Hlen
    by (rewrite Hsplit at 1; rewrite length_append, length_zeros; lia).
  set (ds := {| d := T; dp := Z.of_nat (String.length D) + k - q10 |}).
  destruct (readUnsigned_fmtG ds Hdigits Hne) as (n & k' & Hread & Hnk).
  exists n, k'. split; [exact (readFloat_signed s _ (n, k') Hread)|].
  apply (shortestFor_wd (decimalValue c (k - q10))); [|done].
  unfold nd in Hnk. cbn [d dp] in Hnk. rewrite HcT.
  destruct Hnk as [[-> ->] | (Hge & -> & ->)].
  - rewrite decimalValue_scaled by lia.
    replace (k - q10 + Z.of_nat j)
      with (Z.of_nat (String.length D) + k - q10
            - Z.of_nat (String.length T)) by lia.
    reflexivity.
  - rewrite !decimalValue_scaled by lia.
    replace (k - q10 + Z.of_nat j)
      with (0 + (Z.of_nat (String.length D) + k - q10
                 - Z.of_nat (String.length T))) by lia.
    reflexivity.
Qed.

(** [%v] of a [float64] reads back as the number it is. *)
Lemma readFloat_formatFloat (x : float64) :
  valid_binary prec emax x = true ->
  exists r, readFloat (formatFloat x) = Some r /\ readsAs r x.
Proof.
  destruct x as [s|s| |s m e]; intros Hvalid.
  - exists (Decimal s 0 0). by destruct s.
  - exists (Infinite s). by destruct s.
  - by exists NotANumber.
  - apply andb_true_iff in Hvalid as [Hcanonical _].
    destruct (readFloat_finite s m e Hcanonical) as (n & k & Hread & Hshort).
    by exists (Decimal s n k).
Qed.

End ReadBack.

Section RoundingExamples.
Local Open Scope Z_scope.

(** Decimals that round to 3.5 and decimals that do not: the float
    [7881299347898368 * 2^-51] is 3.5. *)
Lemma roundsTo_examples :
  roundsTo (decimalValue 35 (-1)) 7881299347898368 (-51)
  /\ roundsTo (decimalValue 35000000000000001 (-16)) 7881299347898368 (-51)
  /\ ~ roundsTo (decimalValue 36 (-1)) 7881299347898368 (-51)
  /\ ~ roundsTo (decimalValue 4 0) 7881299347898368 (-51)
  /\ ~ shortestFor (decimalValue 35000000000000001 (-16))
         7881299347898368 (-51).
Proof.
  assert (canonical_mantissa prec emax 7881299347898368 (-51) = true)
    as Hcanonical by reflexivity.
  assert (roundingInterval 7881299347898368 (-51)
          = (let '(l, v, u, q) := roundingInterval 7881299347898368 (-51) in
             (l, v, u, q))) as Hint by reflexivity.
  destruct (roundingInterval 7881299347898368 (-51))
    as [[[lower value] upper] q10] eqn:Hval in Hint.
  pose proof (roundsTo_roundsBack _ _ Hcanonical _ _ _ _ Hval) as Hiff.
  vm_compute in Hval. injection Hval as <- <- <- <-.
  assert (forall n k : Z, (0 <= k + 53)%Z ->
            (decimalValue n k
             == decimalValue (n * 10 ^ (k + 53)) (- 53))%Q) as Hscale.
  { intros n k Hk. rewrite decimalValue_scaled by done.
    by replace (- 53 + (k + 53))%Z with k by lia. }
  assert (roundsTo (decimalValue 35 (-1)) 7881299347898368 (-51)) as H35.
  { apply (roundsTo_wd _ _ _ _ (Qeq_sym _ _ (Hscale 35 (-1) ltac:(lia)))%Z).
    apply Hiff. left. vm_compute. done. }
  split; [exact H35|]. split; [|split; [|split]].
  - apply (roundsTo_wd _ _ _ _
             (Qeq_sym _ _ (Hscale 35000000000000001 (-16) ltac:(lia)))%Z).
    apply Hiff. left. vm_compute. done.
  - intros Hround.
    apply (roundsTo_wd _ _ _ _ (Hscale 36 (-1) ltac:(lia))%Z) in Hround.
    apply Hiff in Hround. vm_compute in Hround.
    destruct Hround as [[_ [=]] | [_ [[=] | [=]]]].
  - intros Hround.
    apply (roundsTo_wd _ _ _ _ (Hscale 4 0 ltac:(lia))%Z) in Hround.
    apply Hiff in Hround. vm_compute in Hround.
    destruct Hround as [[_ [=]] | [_ [[=] | [=]]]].
  - intros (_ & w & c & K & [Hc Hw] & Hval & Hleast).
    specialize (Hleast 2 35 (-1) ltac:(lia) H35)%Z.
    assert (c < 100)%Z as Hc100.
    { assert (10 ^ w <= 10 ^ 2)%Z by (apply Z.pow_le_mono_r; lia). lia. }
    destruct (Z_le_gt_dec (-16) K) as [Hhigh | Hlow].
    + assert (decimalValue 35000000000000001 (-16)
              == decimalValue (c * 10 ^ (K + 16)) (-16))%Q as Heq.
      { rewrite Hval, decimalValue_scaled by lia.
        by replace (-16 + (K + 16))%Z with K by lia. }
      apply decimalValue_eq in Heq.
      destruct (Z.eq_dec K (-16)) as [-> | Hne]; [cbn in Heq; lia|].
      assert (10 ^ (K + 16) = 10 * 10 ^ (K + 15))%Z as Hten.
      { rewrite <- Z.pow_succ_r by lia. f_equal. lia. }
      rewrite Hten in Heq. lia.
    + assert (decimalValue c K
              == decimalValue (35000000000000001 * 10 ^ (-16 - K)) K)%Q
        as Heq.
      { rewrite <- Hval, decimalValue_scaled by lia.
        by replace (K + (-16 - K))%Z with (-16)%Z by lia. }
      apply decimalValue_eq in Heq.
      assert (0 < 10 ^ (-16 - K))%Z by (apply Z.pow_pos_nonneg; lia). nia.
Qed.

End RoundingExamples.

(* ===================================================================== *)
(** * Accumulation                                                        *)
(* ===================================================================== *)

Section Calls.
Context {S : Type}.
Implicit Types (f : any -> S -> outcome S) (vs : list any) (s : S).

Lemma callAll_snoc f vs (v : any) s :
  callAll f (vs ++ [v]) s = andThen (callAll f vs s) (f v).
Proof. unfold callAll. by rewrite fold_left_app. Qed.

(** A sequence of calls none of which can panic does not panic. *)
Lemma callAll_never_panics f vs s :
  (forall v s', v ∈ vs -> panicked (f v s') = false) ->
  panicked (callAll f vs s) = false.
Proof.
  induction vs as [|v vs IH] using rev_ind; intros Hf; [done|].
  rewrite callAll_snoc.
  destruct (callAll f vs s) as [s'|e s'] eqn:Hcall.
  - apply Hf. apply elem_of_app. right. by left.
  - exfalso. cut (panicked (Panicked e s') = false); [done|].
    apply IH. intros v' s'' Hv'. apply Hf, elem_of_app. by left.
Qed.

(** What every single call preserves, a sequence of calls preserves. *)
Lemma callAll_preserves {B : Type} (proj : S -> B) f vs s :
  (forall v s', proj (stateOf (f v s')) = proj s') ->
  proj (stateOf (callAll f vs s)) = proj s.
Proof.
  intros Hf. induction vs as [|v vs IH] using rev_ind; [done|].
  rewrite callAll_snoc.
  destruct (callAll f vs s) as [s'|e s'] eqn:Hcall; cbn in *; [|done].
  by rewrite Hf.
Qed.

End Calls.

(** C7. No call of [Add], on any of the four metrics and with any value,
    returning or panicking, changes the identity of the metric: the
    embedded key, unit, tags and timestamp are the same afterwards, and so
    are the results of [GetKey], [GetUnit], [GetTags] and
    [GetTimestamp]. *)
Theorem Add_preserves_identity (value : any) :
  (forall c : MetricsGo.CounterMetric.t,
     let c' := stateOf (MetricsGo.CounterMetric.Add value c) in
     MetricsGo.CounterMetric.am c' = MetricsGo.CounterMetric.am c
     /\ MetricsGo.CounterMetric.GetKey c' = MetricsGo.CounterMetric.GetKey c
     /\ MetricsGo.CounterMetric.GetUnit c' = MetricsGo.CounterMetric.GetUnit c
     /\ MetricsGo.CounterMetric.GetTags c' = MetricsGo.CounterMetric.GetTags c
     /\ MetricsGo.CounterMetric.GetTimestamp c'
        = MetricsGo.CounterMetric.GetTimestamp c)
  /\ (forall g : MetricsGo.GaugeMetric.t,
     let g' := stateOf (MetricsGo.GaugeMetric.Add value g) in
     MetricsGo.GaugeMetric.am g' = MetricsGo.GaugeMetric.am g
     /\ MetricsGo.GaugeMetric.GetKey g' = MetricsGo.GaugeMetric.GetKey g
     /\ MetricsGo.GaugeMetric.GetUnit g' = MetricsGo.GaugeMetric.GetUnit g
     /\ MetricsGo.GaugeMetric.GetTags g' = MetricsGo.GaugeMetric.GetTags g
     /\ MetricsGo.GaugeMetric.GetTimestamp g'
        = MetricsGo.GaugeMetric.GetTimestamp g)
  /\ (forall d : MetricsGo.DistributionMetric.t,
     let d' := stateOf (MetricsGo.DistributionMetric.Add value d) in
     MetricsGo.DistributionMetric.am d' = MetricsGo.DistributionMetric.am d
     /\ MetricsGo.DistributionMetric.GetKey d'
        = MetricsGo.DistributionMetric.GetKey d
     /\ MetricsGo.DistributionMetric.GetUnit d'
        = MetricsGo.DistributionMetric.GetUnit d
     /\ MetricsGo.DistributionMetric.GetTags d'
        = MetricsGo.DistributionMetric.GetTags d
     /\ MetricsGo.DistributionMetric.GetTimestamp d'
        = MetricsGo.DistributionMetric.GetTimestamp d)
  /\ (forall s : MetricsGo.SetMetric.t,
     let s' := stateOf (MetricsGo.SetMetric.Add value s) in
     MetricsGo.SetMetric.am s' = MetricsGo.SetMetric.am s
     /\ MetricsGo.SetMetric.GetKey s' = MetricsGo.SetMetric.GetKey s
     /\ MetricsGo.SetMetric.GetUnit s' = MetricsGo.SetMetric.GetUnit s
     /\ MetricsGo.SetMetric.GetTags s' = MetricsGo.SetMetric.GetTags s
     /\ MetricsGo.SetMetric.GetTimestamp s'
        = MetricsGo.SetMetric.GetTimestamp s).
Proof.
  repeat split; destruct value; reflexivity.
Qed.

(** C10. [Add] with a value whose dynamic type is [float64] returns, on
    Counter, Gauge and Distribution: the branch of the failed type
    assertion is not taken. *)
Theorem Add_float64_never_panics (value : any) :
  dynamicType value = Some Tfloat64 ->
  (forall c, panicked (MetricsGo.CounterMetric.Add value c) = false)
  /\ (forall g, panicked (MetricsGo.GaugeMetric.Add value g) = false)
  /\ (forall d, panicked (MetricsGo.DistributionMetric.Add value d) = false).
Proof.
  intros Hty. destruct value; try discriminate Hty. repeat split.
Qed.

Lemma Add_float64_never_panics_witness :
  (forall c,
     panicked (MetricsGo.CounterMetric.Add (Float64 (f64 7 (-1))) c) = false)
  /\ (forall g,
     panicked (MetricsGo.GaugeMetric.Add (Float64 (f64 7 (-1))) g) = false)
  /\ (forall d,
     panicked (MetricsGo.DistributionMetric.Add (Float64 (f64 7 (-1))) d)
     = false).
Proof. exact (Add_float64_never_panics (Float64 (f64 7 (-1))) eq_refl). Defined.

(** Every sequence of [float64] observations is accumulated to its end. *)
Lemma Counter_callAll_never_panics (vs : list float64) c :
  panicked (callAll MetricsGo.CounterMetric.Add (map Float64 vs) c) = false.
Proof.
  apply callAll_never_panics.
  intros v s' (x & -> & _)%list_elem_of_fmap. done.
Qed.

Lemma Gauge_callAll_never_panics (vs : list float64) g :
  panicked (callAll MetricsGo.GaugeMetric.Add (map Float64 vs) g) = false.
Proof.
  apply callAll_never_panics.
  intros v s' (x & -> & _)%list_elem_of_fmap. done.
Qed.

Lemma Distribution_callAll_never_panics (vs : list float64) d :
  panicked (callAll MetricsGo.DistributionMetric.Add (map Float64 vs) d)
  = false.
Proof.
  apply callAll_never_panics.
  intros v s' (x & -> & _)%list_elem_of_fmap. done.
Qed.

(** C5. [Add] on a Set with a value whose dynamic type is not [int] - a
    string, in particular - panics with the type assertion error that
    names [int] and the type found, and the set is the one before the
    call: nothing is inserted, nothing is converted. *)
Theorem SetMetric_Add_type_mismatch (value : any) (s : MetricsGo.SetMetric.t) :
  dynamicType value <> Some Tint ->
  MetricsGo.SetMetric.Add value s
  = Panicked {| asserted := Tint; concrete := dynamicType value |} s
  /\ MetricsGo.SetMetric.values (stateOf (MetricsGo.SetMetric.Add value s))
     = MetricsGo.SetMetric.values s.
Proof.
  intros Hty. by destruct value.
Qed.

Lemma SetMetric_Add_type_mismatch_witness :
  let s := MetricsGo.NewSetMetric Z "users" MetricsGo.Ratio ∅ 0 5 in
  MetricsGo.SetMetric.Add (Str "a") s
  = Panicked {| asserted := Tint; concrete := Some Tstring |} s
  /\ MetricsGo.SetMetric.values (stateOf (MetricsGo.SetMetric.Add (Str "a") s))
     = MetricsGo.SetMetric.values s.
Proof.
  intros s. apply (SetMetric_Add_type_mismatch (Str "a") s). discriminate.
Defined.

(* ===================================================================== *)
(** * Counter and Gauge                                                   *)
(* ===================================================================== *)

Section Counter.
Import MetricsGo.

Lemma Counter_Add_float64 (v : float64) (c : CounterMetric.t) :
  CounterMetric.Add (Float64 v) c
  = Returned {| CounterMetric.value := f64add (CounterMetric.value c) v;
                CounterMetric.am := CounterMetric.am c |}.
Proof. reflexivity. Qed.

Lemma Counter_callAll (vs : list float64) (c : CounterMetric.t) :
  callAll CounterMetric.Add (map Float64 vs) c
  = Returned
      {| CounterMetric.value := fold_left f64add vs (CounterMetric.value c);
         CounterMetric.am := CounterMetric.am c |}.
Proof.
  induction vs as [|v vs IH] using rev_ind; [by destruct c|].
  rewrite map_app. cbn [map]. rewrite callAll_snoc, IH, fold_left_app.
  reflexivity.
Qed.

End Counter.

Section CounterRevisions.

Lemma Part000_Counter_fold (vs : list float64) (c : Part000.CounterMetric.t) :
  fold_left (fun c v => Part000.CounterMetric.Add v c) vs c
  = {| Part000.CounterMetric.value :=
         fold_left f64add vs (Part000.CounterMetric.value c);
       Part000.CounterMetric.am := Part000.CounterMetric.am c |}.
Proof.
  induction vs as [|v vs IH] using rev_ind; [by destruct c|].
  by rewrite !fold_left_app, IH.
Qed.

Lemma colon_not_floatByte (c : ascii) :
  floatByte c = true -> Ascii.eqb ":" c = false.
Proof. destruct c as [[] [] [] [] [] [] [] []]; vm_compute; congruence. Qed.

End CounterRevisions.

(** C4, on the code. In both revisions a Counter holds the running sum of
    its observations: after the constructor with [v0] and [Add] with each
    of [vs] in turn, the value is [v0 + vs1 + ... + vsn], added in that
    order in [float64].  The Counter of [metrics.go] serializes it as the
    claim says, a colon and then the text of the sum; the Counter of the
    generic revision writes that text alone: no byte of what it returns is
    a colon.  The text is what the claim says: read as a decimal it has the
    sign of the sum, and for a finite sum other than zero it is a shortest
    decimal that rounds to the sum (for a sum that is a number of binary64,
    as every [float64] is; [spec_float] has other elements).
    Constructed with 2.0, after [Add(3.0)] and [Add(-1.5)], the first
    returns [:3.5] and the second [3.5]; in the same way the sums 100000,
    1000000, 0.0001, 0.00001, 0.1 + 0.2 and 0 give [:100000], [:1e+06],
    [:0.0001], [:1e-05], [:0.30000000000000004] and [:0] in [metrics.go]
    and the same texts without the colon in the generic revision. *)
Theorem Counter_colon_missing_in_generic_revision
    (key : string) (unit : MetricsGo.MetricUnit) (unit' : Part000.MetricUnit)
    (tags : gmap string string) (timestamp : Z) :
  (forall (v0 : float64) (vs : list float64),
     let c :=
       stateOf (callAll MetricsGo.CounterMetric.Add (map Float64 vs)
                  (MetricsGo.NewCounterMetric key unit tags timestamp v0)) in
     let c' :=
       fold_left (fun c v => Part000.CounterMetric.Add v c) vs
         (Part000.NewCounterMetric key unit' tags timestamp v0) in
     MetricsGo.CounterMetric.value c = fold_left f64add vs v0
     /\ Part000.CounterMetric.value c' = fold_left f64add vs v0
     /\ MetricsGo.CounterMetric.SerializeValue c
        = ":" +:+ Part000.CounterMetric.SerializeValue c'
     /\ countBytes (Ascii.eqb ":") (Part000.CounterMetric.SerializeValue c')
        = 0%nat
     /\ (forall rest : string,
           Part000.CounterMetric.SerializeValue c' <> ":" +:+ rest)
     /\ (valid_binary prec emax (fold_left f64add vs v0) = true ->
         exists r : reading,
           readFloat (Part000.CounterMetric.SerializeValue c') = Some r
           /\ readsAs r (fold_left f64add vs v0)))
  /\ (let metricsGo (v0 : float64) (vs : list float64) :=
        MetricsGo.CounterMetric.SerializeValue
          (stateOf (callAll MetricsGo.CounterMetric.Add (map Float64 vs)
                      (MetricsGo.NewCounterMetric key unit tags timestamp
                         v0))) in
      let generic (v0 : float64) (vs : list float64) :=
        Part000.CounterMetric.SerializeValue
          (fold_left (fun c v => Part000.CounterMetric.Add v c) vs
             (Part000.NewCounterMetric key unit' tags timestamp v0)) in
      let tenth (n : Z) := SFdiv prec emax (f64 1 0) (f64 (10 ^ n)%Z 0) in
      (metricsGo (f64 2 0) [f64 3 0; f64 (-3) (-1)] = ":3.5"
       /\ generic (f64 2 0) [f64 3 0; f64 (-3) (-1)] = "3.5")
      /\ (metricsGo (f64 99999 0) [f64 1 0] = ":100000"
          /\ generic (f64 99999 0) [f64 1 0] = "100000")
      /\ (metricsGo (f64 999999 0) [f64 1 0] = ":1e+06"
          /\ generic (f64 999999 0) [f64 1 0] = "1e+06")
      /\ (metricsGo (tenth 4%Z) [] = ":0.0001"
          /\ generic (tenth 4%Z) [] = "0.0001")
      /\ (metricsGo (tenth 5%Z) [] = ":1e-05"
          /\ generic (tenth 5%Z) [] = "1e-05")
      /\ (metricsGo (tenth 1%Z) [SFdiv prec emax (f64 2 0) (f64 10 0)]
          = ":0.30000000000000004"
          /\ generic (tenth 1%Z) [SFdiv prec emax (f64 2 0) (f64 10 0)]
             = "0.30000000000000004")
      /\ (metricsGo (f64 1 0) [f64 (-1) 0] = ":0"
          /\ generic (f64 1 0) [f64 (-1) 0] = "0")).
Proof.
  split; [|cbv zeta; repeat split; vm_compute; reflexivity].
  intros v0 vs c c'. unfold c, c'.
  rewrite Counter_callAll, Part000_Counter_fold. cbn [stateOf].
  unfold MetricsGo.CounterMetric.SerializeValue,
    Part000.CounterMetric.SerializeValue.
  cbn [MetricsGo.CounterMetric.value Part000.CounterMetric.value
       MetricsGo.NewCounterMetric Part000.NewCounterMetric].
  assert (countBytes (Ascii.eqb ":") (formatFloat (fold_left f64add vs v0))
          = 0%nat) as Hnone
    by (apply floatByte_countBytes;
        [apply colon_not_floatByte|apply everyByte_formatFloat]).
  split; [done|]. split; [done|]. split; [done|]. split; [done|]. split.
  - intros rest Heq. rewrite Heq in Hnone. discriminate Hnone.
  - apply readFloat_formatFloat.
Qed.

Lemma Counter_colon_missing_in_generic_revision_witness :
  let c' :=
    fold_left (fun c v => Part000.CounterMetric.Add v c)
      [f64 3 0; f64 (-3) (-1)]
      (Part000.NewCounterMetric "requests" Part000.Second ∅ 1700000000
         (f64 2 0)) in
  valid_binary prec emax (Part000.CounterMetric.value c') = true
  /\ readFloat (Part000.CounterMetric.SerializeValue c')
     = Some (Decimal false 35 (-1))
  /\ readsAs (Decimal false 35 (-1)) (Part000.CounterMetric.value c').
Proof.
  intros c'. split; [reflexivity|].
  destruct (proj2 (proj2 (proj2 (proj2 (proj2
              (proj1 (Counter_colon_missing_in_generic_revision
                        "requests" MetricsGo.Second Part000.Second ∅
                        1700000000)
                 (f64 2 0) [f64 3 0; f64 (-3) (-1)])))))
              eq_refl)
    as (r & Hread & Hreads).
  vm_compute in Hread. injection Hread as <-.
  split; [vm_compute; reflexivity|exact Hreads].
Defined.

(** The generic revision writes the sum without the colon. *)
Lemma Part000_Counter_no_colon (c : Part000.CounterMetric.t) :
  Part000.CounterMetric.SerializeValue c
  = formatFloat (Part000.CounterMetric.value c).
Proof. reflexivity. Qed.

Section Gauge.
Import MetricsGo.

Lemma Gauge_callAll_count (vs : list float64) (g : GaugeMetric.t) :
  exists g',
    callAll GaugeMetric.Add (map Float64 vs) g = Returned g'
    /\ GaugeMetric.count g'
       = fold_left (fun n _ => f64add n (f64 1 0)) vs (GaugeMetric.count g).
Proof.
  induction vs as [|v vs IH] using rev_ind; [by exists g|].
  destruct IH as (g' & Hrun & Hcount).
  rewrite map_app. cbn [map]. rewrite callAll_snoc, Hrun, fold_left_app. cbn.
  eexists. split; [reflexivity|]. cbn. by rewrite Hcount.
Qed.

End Gauge.

(** C1, on the code. The constructor of a Gauge stores the first
    observation in [count] as well, so after [n] calls of [Add] the count
    is that observation plus [n], not [n + 1]: constructed with 5.0, after
    [Add(1.0)] and [Add(9.0)] the Gauge has last 9, min 1, max 9, sum 15
    and count 7, and serializes to [:9:1:9:15:7]. *)
Theorem Gauge_count_starts_at_first_value
    (key : string) (unit : MetricsGo.MetricUnit) (tags : gmap string string)
    (timestamp : Z) :
  (forall (v0 : float64) (vs : list float64),
     MetricsGo.GaugeMetric.count
       (stateOf (callAll MetricsGo.GaugeMetric.Add (map Float64 vs)
                   (MetricsGo.NewGaugeMetric key unit tags timestamp v0)))
     = fold_left (fun n _ => f64add n (f64 1 0)) vs v0)
  /\ (let g :=
        stateOf (callAll MetricsGo.GaugeMetric.Add
                   [Float64 (f64 1 0); Float64 (f64 9 0)]
                   (MetricsGo.NewGaugeMetric key unit tags timestamp (f64 5 0)))
      in
      MetricsGo.GaugeMetric.last g = f64 9 0
      /\ MetricsGo.GaugeMetric.min g = f64 1 0
      /\ MetricsGo.GaugeMetric.max g = f64 9 0
      /\ MetricsGo.GaugeMetric.sum g = f64 15 0
      /\ MetricsGo.GaugeMetric.count g = f64 7 0
      /\ MetricsGo.GaugeMetric.count g <> f64 3 0
      /\ MetricsGo.GaugeMetric.SerializeValue g = ":9:1:9:15:7")
  /\ (let g :=
        Part000.GaugeMetric.Add (f64 9 0)
          (Part000.GaugeMetric.Add (f64 1 0)
             (Part000.NewGaugeMetric key Part000.Second tags timestamp
                (f64 5 0))) in
      Part000.GaugeMetric.count g = f64 7 0
      /\ Part000.GaugeMetric.SerializeValue g = ":9:1:9:15:7").
Proof.
  split; [|split].
  - intros v0 vs.
    destruct (Gauge_callAll_count vs
                (MetricsGo.NewGaugeMetric key unit tags timestamp v0))
      as (g' & -> & Hcount). exact Hcount.
  - cbv zeta. repeat split; try (vm_compute; reflexivity).
    vm_compute. discriminate.
  - cbv zeta. split; vm_compute; reflexivity.
Qed.

(* ===================================================================== *)
(** * Set                                                                 *)
(* ===================================================================== *)

Import (hints) Part000.

Section Sets.

Lemma insert_present `{Countable K} (v : K) (X : gset K) :
  v ∈ X -> {[v]} ∪ X = X.
Proof. intros Hv. by apply subseteq_union_1_L, singleton_subseteq_l. Qed.

Lemma sorted_rangeOrder `{Countable K} `{!Ordered K} `{!StrictTotal K}
    (keys : gset K) (visit : list K) :
  rangeOrder keys visit ->
  rangeOrder keys (sortLess visit) /\ ascending (sortLess visit).
Proof.
  intros Hv. split.
  - apply (rangeOrder_permute keys visit); [|done].
    symmetry. apply sortLess_Permutation.
  - apply sortLess_ascending, Hv.
Qed.

Context {T : Type} `{Part000.NumberOrString T} `{!StrictTotal T}.
Implicit Types (s : Part000.SetMetric.t T) (range : ranger T).

Lemma Part000_Set_Add_present s (v : T) :
  v ∈ Part000.SetMetric.values s -> Part000.SetMetric.Add v s = s.
Proof.
  intros Hv. destruct s as [values am]. unfold Part000.SetMetric.Add. cbn.
  f_equal. by apply insert_present.
Qed.

Lemma Part000_Set_SerializeValue_sorted s range :
  rangeOrder (Part000.SetMetric.values s)
    (range (Part000.SetMetric.values s)) ->
  exists l : list T,
    rangeOrder (Part000.SetMetric.values s) l /\ ascending l
    /\ Part000.SetMetric.SerializeValue range s
       = concatAll (map Part000.SetMetric.writeElement l).
Proof.
  intros Hv. exists (sortLess (range (Part000.SetMetric.values s))).
  destruct (sorted_rangeOrder _ _ Hv) as [Hr Ha].
  split; [done|]. split; [done|].
  unfold Part000.SetMetric.SerializeValue.
  by rewrite fold_WriteString, append_nil_l.
Qed.

Lemma Part000_Set_SerializeValue_order_irrelevant s range range' :
  rangeOrder (Part000.SetMetric.values s)
    (range (Part000.SetMetric.values s)) ->
  rangeOrder (Part000.SetMetric.values s)
    (range' (Part000.SetMetric.values s)) ->
  Part000.SetMetric.SerializeValue range' s
  = Part000.SetMetric.SerializeValue range s.
Proof.
  intros Hv Hv'. unfold Part000.SetMetric.SerializeValue.
  by rewrite (sortLess_unique (range' _) (range _))
    by (by eapply rangeOrder_Permutation).
Qed.

End Sets.

(** C3. In a Set, [Add] of an element that is present leaves the metric as
    it is, and [SerializeValue] writes the distinct elements in ascending
    order of the elements themselves - integers by value, strings byte by
    byte - each rendered after the ordering: an integer as its decimal, a
    string as the decimal of its CRC-32 (IEEE).  So the Set of strings
    constructed with [b] and extended with [a] serializes to the checksum
    of [a] followed by that of [b], although the first is the larger
    number.  The Set of [metrics.go] holds integers only and behaves as the
    integer Set of the generic revision. *)
Theorem Set_distinct_sorted_then_rendered :
  (forall (s : Part000.SetMetric.t Z) (v : Z) (range : ranger Z),
     (v ∈ Part000.SetMetric.values s -> Part000.SetMetric.Add v s = s)
     /\ (rangeOrder (Part000.SetMetric.values s)
           (range (Part000.SetMetric.values s)) ->
         exists l : list Z,
           rangeOrder (Part000.SetMetric.values s) l /\ ascending l
           /\ Part000.SetMetric.SerializeValue range s
              = concatAll (map renderInt l)))
  /\ (forall (s : Part000.SetMetric.t string) (v : string)
        (range : ranger string),
     (v ∈ Part000.SetMetric.values s -> Part000.SetMetric.Add v s = s)
     /\ (rangeOrder (Part000.SetMetric.values s)
           (range (Part000.SetMetric.values s)) ->
         exists l : list string,
           rangeOrder (Part000.SetMetric.values s) l /\ ascending l
           /\ Part000.SetMetric.SerializeValue range s
              = concatAll (map renderHash l)))
  /\ (forall (key : string) (unit : Part000.MetricUnit)
        (tags : gmap string string) (timestamp : Z) (range : ranger string),
     let s :=
       Part000.SetMetric.Add "a"
         (Part000.NewSetMetric key unit tags timestamp "b") in
     rangeOrder (Part000.SetMetric.values s)
       (range (Part000.SetMetric.values s)) ->
     Part000.SetMetric.SerializeValue range s = ":3904355907:1908338681"
     /\ renderHash "a" = ":3904355907" /\ renderHash "b" = ":1908338681")
  /\ (forall (s : MetricsGo.SetMetric.t) (v : Z) (range : ranger Z),
     (v ∈ MetricsGo.SetMetric.values s ->
      MetricsGo.SetMetric.Add (Int v) s = Returned s)
     /\ (rangeOrder (MetricsGo.SetMetric.values s)
           (range (MetricsGo.SetMetric.values s)) ->
         exists l : list Z,
           rangeOrder (MetricsGo.SetMetric.values s) l /\ ascending l
           /\ MetricsGo.SetMetric.SerializeValue range s
              = concatAll (map renderInt l))).
Proof.
  split; [|split; [|split]].
  - intros s v range. split; [apply Part000_Set_Add_present|].
    intros Hv.
    destruct (Part000_Set_SerializeValue_sorted s range Hv)
      as (l & Hr & Ha & Hout).
    exists l. split; [done|]. split; [done|]. exact Hout.
  - intros s v range. split; [apply Part000_Set_Add_present|].
    intros Hv.
    destruct (Part000_Set_SerializeValue_sorted s range Hv)
      as (l & Hr & Ha & Hout).
    exists l. split; [done|]. split; [done|]. exact Hout.
  - intros key unit tags timestamp range s Hv.
    split; [|split; vm_compute; reflexivity].
    rewrite (Part000_Set_SerializeValue_order_irrelevant s
               (fun _ => ["a"; "b"]) range); [vm_compute; reflexivity| |done].
    unfold s. cbn. range_order.
  - intros s v range. split.
    + intros Hv. destruct s as [values am]. unfold MetricsGo.SetMetric.Add.
      cbn in *. by rewrite insert_present.
    + intros Hv. exists (sortLess (range (MetricsGo.SetMetric.values s))).
      destruct (sorted_rangeOrder _ _ Hv) as [Hr Ha].
      split; [done|]. split; [done|].
      unfold MetricsGo.SetMetric.SerializeValue, MetricsGo.sortSlice.
      by rewrite fold_WriteString, append_nil_l.
Qed.

Lemma Set_distinct_sorted_then_rendered_witness :
  let s :=
    Part000.SetMetric.Add "a"
      (Part000.NewSetMetric "users" Part000.Ratio ∅ 0 "b") in
  Part000.SetMetric.Add "b" s = s
  /\ Part000.SetMetric.SerializeValue (fun _ => ["b"; "a"]) s
     = ":3904355907:1908338681"
  /\ MetricsGo.SetMetric.Add (Int 5)
       (MetricsGo.NewSetMetric Z "users" MetricsGo.Ratio ∅ 0 5)
     = Returned (MetricsGo.NewSetMetric Z "users" MetricsGo.Ratio ∅ 0 5).
Proof.
  intros s.
  destruct Set_distinct_sorted_then_rendered as (_ & Hstr & Hex & Hint).
  split; [|split].
  - apply (proj1 (Hstr s "b" elements)). compute_done.
  - apply (Hex "users" Part000.Ratio ∅ 0%Z (fun _ => ["b"; "a"])).
    apply (rangeOrder_permute _ ["a"; "b"]); [apply Permutation_swap|].
    cbn. range_order.
  - apply (proj1 (Hint _ 5%Z elements)). compute_done.
Defined.
